(** * First-Topdown-game: the scheduler, the player and the motion core

    A shallow embedding of the parts of [main.py] and [player.py] that the
    specification talks about, with the properties of the specification
    stated and settled against them.

    - [Scheduler]   : [Game.update_pathfinding_queue] (main.py)
    - [Floats]      : comparisons and vectors over the rationals
    - [PlayerStats] : [Player.decrease_stamina], [Player.increase_stamina],
                      [Player.pickup_item], [Player.process_input] (player.py)
    - [Motion]      : the movement part of [Player.update] (player.py) and
                      the collision resolver it calls
    - [Pathfinding] : [Game.find_path] (main.py) and the search it calls

    The resolver ([core_functions.py]) and the search ([pathfinding.py])
    are not among the sources; they are modelled after the specification
    and marked as such where they are defined.

    Times are milliseconds as integers ([pg.time.get_ticks]); health is an
    integer; stamina, velocities and positions are Python floats and are
    modelled by exact rationals. *)

From Stdlib Require Import ZArith QArith Qabs Qround Lia Lqa Bool Sorted.
From stdpp Require Import gmap strings list fin_maps.
From Stdlib Require Import Ascii.

Set Implicit Arguments.
Open Scope Z_scope.

(* ===================================================================== *)
(** ** The path-finding queue of [main.py]                                *)
(* ===================================================================== *)

Module Scheduler.

(** A mob as the scheduler sees it: its identity and the flag that
    [update_pathfinding_queue] writes. *)
Record Mob := mkMob { mob_id : nat; can_find_path : bool }.

(** The three attributes of [Game] that the queue reads and writes:
    [self.mobs] (a sprite group, iterated in insertion order),
    [self.mob_idx] and [self.last_queue_update]. *)
Record Game := mkGame {
  mobs : list Mob;
  mob_idx : nat;
  last_queue_update : Z
}.

(** [Game.new]: [self.mob_idx = 0], [self.last_queue_update = 0]. *)
Definition new (ms : list Mob) : Game :=
  {| mobs := ms; mob_idx := 0; last_queue_update := 0 |}.

(** The body of [for mob in self.mobs]: every mob gets [False], then the
    one whose running [count] equals [mob_idx] gets [True]. *)
Fixpoint flag_loop (ms : list Mob) (count idx : nat) : list Mob :=
  match ms with
  | [] => []
  | m :: rest =>
      {| mob_id := mob_id m; can_find_path := Nat.eqb count idx |}
        :: flag_loop rest (S count) idx
  end.

(** The test [now - self.last_queue_update > 5000]. *)
Definition window_elapsed (now : Z) (g : Game) : bool :=
  now - last_queue_update g >? 5000.

(** The wrap-around [if self.mob_idx == len(self.mobs): self.mob_idx = 0]. *)
Definition wrap_idx (g : Game) : nat :=
  if Nat.eqb (mob_idx g) (length (mobs g)) then 0%nat else mob_idx g.

(** [Game.update_pathfinding_queue], with [now] the value that
    [pg.time.get_ticks()] returns. *)
Definition update_pathfinding_queue (now : Z) (g : Game) : Game :=
  if window_elapsed now g then
    {| mobs := flag_loop (mobs g) 0 (wrap_idx g);
       mob_idx := S (wrap_idx g);
       last_queue_update := now |}
  else g.

(** A mob that dies leaves the sprite group ([Sprite.kill]); the other mobs
    keep their order. [i] is the position of the dead mob. *)
Definition kill (i : nat) (g : Game) : Game :=
  {| mobs := delete i (mobs g);
     mob_idx := mob_idx g;
     last_queue_update := last_queue_update g |}.

(** What can happen to the queue between two looks at it: a frame calls
    [update_pathfinding_queue] at some clock value, or a mob dies. *)
Inductive event := Frame (now : Z) | Death (i : nat).

Definition step (g : Game) (e : event) : Game :=
  match e with
  | Frame now => update_pathfinding_queue now g
  | Death i => kill i g
  end.

Definition run (g : Game) (es : list event) : Game := fold_left step es g.

(** The states the game can be in: those that a level started by [new]
    reaches through frames with a clock that does not run backwards and
    deaths of mobs that are there. *)
Inductive reachable : Game -> Prop :=
| reach_new ms : reachable (new ms)
| reach_frame g now :
    reachable g -> last_queue_update g <= now ->
    reachable (update_pathfinding_queue now g)
| reach_death g i :
    reachable g -> (i < length (mobs g))%nat -> reachable (kill i g).

(** The mobs that may search for a path, and how many they are. *)
Definition eligible (g : Game) : list Mob := filter (fun m => can_find_path m = true) (mobs g).

Definition eligible_count (g : Game) : nat := length (eligible g).

(** A run of scheduling windows: clock values at which the queue is looked
    at, each more than 5000 ms after the one before. *)
Fixpoint windows (last : Z) (ticks : list Z) : Prop :=
  match ticks with
  | [] => True
  | now :: rest => now - last > 5000 /\ windows now rest
  end.

(** How often the mob at position [j] is made eligible by the frames at
    [ticks] (one dispatch is one window that leaves its flag [True]). *)
Fixpoint dispatches (j : nat) (g : Game) (ticks : list Z) : nat :=
  match ticks with
  | [] => 0%nat
  | now :: rest =>
      let g' := update_pathfinding_queue now g in
      ((if window_elapsed now g
        then match mobs g' !! j with
             | Some m => if can_find_path m then 1 else 0
             | None => 0
             end
        else 0) + dispatches j g' rest)%nat
  end.

(** The state after the frames at [ticks]. *)
Definition after (g : Game) (ticks : list Z) : Game :=
  fold_left (fun g now => update_pathfinding_queue now g) ticks g.

(** *** What the loop does *)

Lemma flag_loop_length ms count idx :
  length (flag_loop ms count idx) = length ms.
Proof.
  revert count; induction ms as [|m ms IH]; intros count; simpl; [done|].
  by rewrite IH.
Qed.

Lemma flag_loop_lookup ms count idx j :
  flag_loop ms count idx !! j
  = (fun m => mkMob (mob_id m) (Nat.eqb (count + j) idx)) <$> ms !! j.
Proof.
  revert count j; induction ms as [|m ms IH]; intros count j; [done|].
  destruct j as [|j]; simpl.
  - by rewrite Nat.add_0_r.
  - rewrite IH. by replace (S count + j)%nat with (count + S j)%nat by lia.
Qed.

Lemma flag_loop_ids ms count idx :
  mob_id <$> flag_loop ms count idx = mob_id <$> ms.
Proof.
  revert count; induction ms as [|m ms IH]; intros count; simpl; [done|].
  by rewrite IH.
Qed.

(** The loop leaves one flag up when the index points into the group and
    none when it points past its end. *)
Lemma flag_loop_eligible ms count idx :
  length (filter (fun m => can_find_path m = true) (flag_loop ms count idx))
  = if decide (count <= idx < count + length ms)%nat then 1%nat else 0%nat.
Proof.
  revert count; induction ms as [|m ms IH]; intros count; simpl.
  - case_decide; [lia|done].
  - rewrite filter_cons; simpl. destruct (Nat.eqb_spec count idx) as [->|Hne].
    + rewrite decide_True by done. simpl. rewrite IH.
      rewrite decide_False by lia. rewrite decide_True by lia. done.
    + rewrite decide_False by (intros ?; discriminate). rewrite IH.
      repeat case_decide; done || lia.
Qed.

Lemma wrap_idx_lt g :
  (mob_idx g <= length (mobs g))%nat -> (0 < length (mobs g))%nat ->
  (wrap_idx g < length (mobs g))%nat.
Proof.
  unfold wrap_idx. destruct (Nat.eqb_spec (mob_idx g) (length (mobs g))); lia.
Qed.

Lemma wrap_idx_stale g :
  (length (mobs g) < mob_idx g)%nat -> wrap_idx g = mob_idx g.
Proof.
  unfold wrap_idx. destruct (Nat.eqb_spec (mob_idx g) (length (mobs g))); lia.
Qed.

(** A window that finds the index inside the group makes one mob eligible. *)
Lemma synced_window_one_eligible now g :
  window_elapsed now g = true ->
  (mob_idx g <= length (mobs g))%nat -> (0 < length (mobs g))%nat ->
  eligible_count (update_pathfinding_queue now g) = 1%nat.
Proof.
  intros Hw Hle Hpos. unfold eligible_count, eligible, update_pathfinding_queue.
  rewrite Hw; simpl. rewrite flag_loop_eligible.
  pose proof (wrap_idx_lt g Hle Hpos). rewrite decide_True; [done|lia].
Qed.

(** A window that finds the index past the end of the group makes no mob
    eligible and moves the index one further away. *)
Lemma stale_window now g :
  window_elapsed now g = true ->
  (length (mobs g) < mob_idx g)%nat ->
  let g' := update_pathfinding_queue now g in
  eligible_count g' = 0%nat /\ mob_idx g' = S (mob_idx g)
  /\ length (mobs g') = length (mobs g).
Proof.
  intros Hw Hst. unfold eligible_count, eligible, update_pathfinding_queue.
  rewrite Hw; simpl. rewrite flag_loop_eligible, flag_loop_length.
  rewrite (wrap_idx_stale g Hst). rewrite decide_False by lia. done.
Qed.

(** *** Runs of windows *)

Lemma window_elapsed_true now g :
  now - last_queue_update g > 5000 -> window_elapsed now g = true.
Proof. unfold window_elapsed. intros H. apply Z.gtb_lt. lia. Qed.

Lemma window_elapsed_false now g :
  now - last_queue_update g <= 5000 -> window_elapsed now g = false.
Proof.
  unfold window_elapsed. intros H.
  destruct (Z.gtb_spec (now - last_queue_update g) 5000); [lia|done].
Qed.

Lemma update_fired now g :
  window_elapsed now g = true ->
  update_pathfinding_queue now g
  = mkGame (flag_loop (mobs g) 0 (wrap_idx g)) (S (wrap_idx g)) now.
Proof. intros Hw. unfold update_pathfinding_queue. by rewrite Hw. Qed.

(** Once the index is past the end of the group, every later window finds
    it there: the index only grows and no flag goes up. *)
Lemma stale_after g ticks :
  windows (last_queue_update g) ticks ->
  (length (mobs g) < mob_idx g)%nat ->
  mob_idx (after g ticks) = (mob_idx g + length ticks)%nat
  /\ length (mobs (after g ticks)) = length (mobs g)
  /\ (ticks <> [] -> eligible_count (after g ticks) = 0%nat).
Proof.
  revert g; induction ticks as [|now rest IH]; intros g Hwin Hst.
  - simpl. split; [lia|]. split; [done|]. intros H; by destruct H.
  - destruct Hwin as [Hgt Hrest].
    pose proof (window_elapsed_true now g Hgt) as Hw.
    destruct (stale_window now g Hw Hst) as (Hel & Hidx & Hlen).
    assert (Hl : last_queue_update (update_pathfinding_queue now g) = now)
      by (by rewrite update_fired).
    destruct (IH (update_pathfinding_queue now g)) as (IH1 & IH2 & IH3).
    { by rewrite Hl. }
    { rewrite Hlen, Hidx. lia. }
    unfold after in *; simpl. split; [rewrite IH1, Hidx; lia|].
    split; [by rewrite IH2|]. intros _.
    destruct rest as [|t rest']; [exact Hel|]. by apply IH3.
Qed.

(** The position the next window will flag, followed over a run of
    windows: [hits k p j n] counts how often position [j] comes up in [n]
    windows that start with the wrapped index at [p], in a group of [k]. *)
Fixpoint hits (k p j n : nat) : nat :=
  match n with
  | O => 0%nat
  | S n' =>
      ((if Nat.eqb j p then 1 else 0)
       + hits k (if Nat.eqb (S p) k then 0 else S p) j n')%nat
  end.

Lemma dispatches_hits g ticks j :
  windows (last_queue_update g) ticks ->
  (j < length (mobs g))%nat ->
  dispatches j g ticks = hits (length (mobs g)) (wrap_idx g) j (length ticks).
Proof.
  revert g; induction ticks as [|now rest IH]; intros g Hwin Hj; [done|].
  destruct Hwin as [Hgt Hrest].
  pose proof (window_elapsed_true now g Hgt) as Hw.
  cbn [dispatches hits length]. rewrite Hw, (update_fired now g Hw).
  rewrite IH; cbn [mobs last_queue_update]; rewrite ?flag_loop_length; try done.
  rewrite flag_loop_lookup.
  destruct (lookup_lt_is_Some_2 (mobs g) j Hj) as [m ->].
  cbn [fmap option_fmap option_map can_find_path Nat.add].
  f_equal. f_equal. unfold wrap_idx at 1; cbn [mob_idx mobs].
  by rewrite flag_loop_length.
Qed.

(** How many windows position [j] is away from the wrapped index [p]. *)
Definition turns_away (k p j : nat) : nat :=
  if Nat.leb p j then (j - p)%nat else (j + k - p)%nat.

Lemma hits_closed k j n : forall p q r,
  (j < k)%nat -> (p < k)%nat -> (r < k)%nat -> n = (q * k + r)%nat ->
  hits k p j n = (q + if Nat.ltb (turns_away k p j) r then 1 else 0)%nat.
Proof.
  induction n as [|n IH]; intros p q r Hj Hp Hr Hn.
  - assert (q = 0%nat) by (destruct q; [done|lia]). assert (r = 0%nat) by lia.
    subst. done.
  - cbn [hits].
    set (p' := if Nat.eqb (S p) k then 0%nat else S p).
    assert (Hp' : (p' < k)%nat)
      by (subst p'; destruct (Nat.eqb_spec (S p) k); lia).
    assert (Hd : turns_away k p' j
                 = if Nat.eqb j p then (k - 1)%nat
                   else (turns_away k p j - 1)%nat).
    { subst p'. unfold turns_away.
      destruct (Nat.eqb_spec (S p) k), (Nat.eqb_spec j p);
        repeat match goal with
               | |- context [Nat.leb ?a ?b] => destruct (Nat.leb_spec a b)
               end; lia. }
    assert (Hd0 : Nat.eqb j p = false -> (1 <= turns_away k p j)%nat).
    { intros Hne. apply Nat.eqb_neq in Hne. unfold turns_away.
      destruct (Nat.leb_spec p j); lia. }
    destruct r as [|r'].
    + destruct q as [|q']; [lia|].
      rewrite (IH p' q' (k - 1)%nat) by lia. rewrite Hd.
      destruct (Nat.eqb j p) eqn:Hjp.
      * destruct (Nat.ltb_spec (k - 1) (k - 1)); [lia|].
        destruct (Nat.ltb_spec (turns_away k p j) 0); lia.
      * specialize (Hd0 eq_refl).
        assert (turns_away k p j < k)%nat
          by (unfold turns_away; destruct (Nat.leb_spec p j); lia).
        destruct (Nat.ltb_spec (turns_away k p j - 1) (k - 1)); [|lia].
        destruct (Nat.ltb_spec (turns_away k p j) 0); lia.
    + rewrite (IH p' q r') by lia. rewrite Hd.
      destruct (Nat.eqb j p) eqn:Hjp.
      * apply Nat.eqb_eq in Hjp. subst p.
        assert (turns_away k j j = 0%nat)
          by (unfold turns_away; destruct (Nat.leb_spec j j); lia).
        destruct (Nat.ltb_spec (k - 1) r'); [lia|].
        destruct (Nat.ltb_spec (turns_away k j j) (S r')); lia.
      * specialize (Hd0 eq_refl).
        destruct (Nat.ltb_spec (turns_away k p j - 1) r'),
                 (Nat.ltb_spec (turns_away k p j) (S r')); lia.
Qed.

(** Round robin while the index is inside the group: over [N] windows with
    the same [k > 0] mobs, each position is flagged [N / k] times or once
    more. *)
Lemma synced_fair_share g ticks j :
  windows (last_queue_update g) ticks ->
  (mob_idx g <= length (mobs g))%nat ->
  (j < length (mobs g))%nat ->
  (length ticks / length (mobs g) <= dispatches j g ticks
   <= length ticks / length (mobs g) + 1)%nat.
Proof.
  intros Hwin Hsync Hj. rewrite dispatches_hits by done.
  set (k := length (mobs g)) in *. set (n := length ticks).
  assert (Hk : (k <> 0)%nat) by lia.
  pose proof (wrap_idx_lt g Hsync ltac:(fold k; lia)) as Hp. fold k in Hp.
  rewrite (@hits_closed k j n (wrap_idx g) (n / k)%nat (n mod k)%nat Hj Hp).
  - destruct (Nat.ltb _ _); lia.
  - by apply Nat.mod_upper_bound.
  - rewrite (Nat.div_mod_eq n k) at 1. lia.
Qed.

(** *** A level that loses two of its three mobs *)

Definition three_mobs : list Mob :=
  [mkMob 0 false; mkMob 1 false; mkMob 2 false].

(** Three windows, one for each mob, then the first two mobs die. *)
Definition two_deaths : list event :=
  [Frame 5001; Frame 10002; Frame 15003; Death 0; Death 0].

Definition survivor : Game := run (new three_mobs) two_deaths.

(** Clock values of later windows. *)
Definition three_windows : list Z := [20004; 25005; 30006].
Definition four_windows : list Z := [20004; 25005; 30006; 35007].

Lemma survivor_reachable : reachable survivor.
Proof.
  unfold survivor, run, two_deaths; cbn [fold_left step].
  apply reach_death; [apply reach_death; [|vm_compute; lia]|vm_compute; lia].
  repeat (apply reach_frame; [|vm_compute; discriminate]).
  apply reach_new.
Qed.

(** C1 (fails on the code): a window that fires must leave exactly one
    registered mob eligible. In the reachable state [survivor] one mob is
    registered, the index is 3, and the window at 20004 ms fires and leaves
    no mob eligible. *)
Theorem C1_window_after_deaths_flags_no_mob :
  reachable survivor
  /\ mobs survivor = [mkMob 2 true] /\ mob_idx survivor = 3%nat
  /\ window_elapsed 20004 survivor = true
  /\ mobs (update_pathfinding_queue 20004 survivor) = [mkMob 2 false]
  /\ eligible_count (update_pathfinding_queue 20004 survivor) = 0%nat.
Proof. split; [exact survivor_reachable|]. repeat split. Qed.

(** C2 (fails on the code): after the group has shrunk the index must be
    taken modulo the new count before the next window. Where the index is
    past the end of the group, no later window brings it back: after any
    run of windows it has grown by their number and is still past the end. *)
Theorem C2_index_past_end_is_never_recomputed g ticks :
  windows (last_queue_update g) ticks ->
  (length (mobs g) < mob_idx g)%nat ->
  mob_idx (after g ticks) = (mob_idx g + length ticks)%nat
  /\ (length (mobs (after g ticks)) < mob_idx (after g ticks))%nat.
Proof.
  intros Hwin Hst. destruct (stale_after g ticks Hwin Hst) as (H1 & H2 & _).
  split; [done|]. rewrite H1, H2. lia.
Qed.

Lemma C2_index_past_end_witness :
  windows (last_queue_update survivor) three_windows
  /\ (length (mobs survivor) < mob_idx survivor)%nat
  /\ mob_idx (after survivor three_windows) = 6%nat
  /\ (length (mobs (after survivor three_windows))
      < mob_idx (after survivor three_windows))%nat.
Proof.
  assert (Hw : windows (last_queue_update survivor) three_windows)
    by (vm_compute; repeat split).
  assert (Hs : (length (mobs survivor) < mob_idx survivor)%nat)
    by (vm_compute; lia).
  split; [exact Hw|]. split; [exact Hs|].
  exact (C2_index_past_end_is_never_recomputed survivor three_windows Hw Hs).
Defined.

(** C5 (fails on the code): over [N] windows with the same [k > 0] mobs
    each mob must be dispatched about [N / k] times. Where the index is
    past the end of the group, no mob is dispatched in any run of windows,
    however long. *)
Theorem C5_index_past_end_starves_every_mob g ticks j :
  windows (last_queue_update g) ticks ->
  (length (mobs g) < mob_idx g)%nat ->
  dispatches j g ticks = 0%nat.
Proof.
  revert g; induction ticks as [|now rest IH]; intros g Hwin Hst; [done|].
  destruct Hwin as [Hgt Hrest].
  pose proof (window_elapsed_true now g Hgt) as Hw.
  destruct (stale_window now g Hw Hst) as (_ & Hidx & Hlen).
  cbn [dispatches]. rewrite Hw, IH.
  - rewrite (update_fired now g Hw); cbn [mobs]. rewrite flag_loop_lookup.
    destruct (mobs g !! j) as [m|] eqn:Hm; [|done].
    apply lookup_lt_Some in Hm. cbn.
    rewrite (wrap_idx_stale g Hst).
    destruct (Nat.eqb_spec j (mob_idx g)); [lia|done].
  - by rewrite (update_fired now g Hw).
  - rewrite Hlen, Hidx. lia.
Qed.

Lemma C5_index_past_end_witness :
  windows (last_queue_update survivor) four_windows
  /\ (length (mobs survivor) < mob_idx survivor)%nat
  /\ dispatches 0 survivor four_windows = 0%nat.
Proof.
  assert (Hw : windows (last_queue_update survivor) four_windows)
    by (vm_compute; repeat split).
  assert (Hs : (length (mobs survivor) < mob_idx survivor)%nat)
    by (vm_compute; lia).
  split; [exact Hw|]. split; [exact Hs|].
  exact (C5_index_past_end_starves_every_mob survivor four_windows 0%nat Hw Hs).
Defined.

(** C6: a call at which no more than 5000 ms have passed since
    [last_queue_update] changes nothing: the flags of all mobs, [mob_idx]
    and [last_queue_update] are as before. *)
Theorem C6_no_elapsed_window_changes_nothing now g :
  now - last_queue_update g <= 5000 ->
  update_pathfinding_queue now g = g.
Proof.
  intros H. unfold update_pathfinding_queue.
  by rewrite (window_elapsed_false now g H).
Qed.

Lemma C6_no_elapsed_window_witness :
  20003 - last_queue_update survivor <= 5000
  /\ update_pathfinding_queue 20003 survivor = survivor.
Proof.
  assert (H : 20003 - last_queue_update survivor <= 5000)
    by (vm_compute; discriminate).
  split; [exact H|].
  exact (C6_no_elapsed_window_changes_nothing 20003 survivor H).
Defined.

End Scheduler.

(* ===================================================================== *)
(** ** Numbers and vectors                                                *)
(* ===================================================================== *)

Module Floats.

Open Scope Q_scope.

(** Comparisons of Python floats, on rationals. *)
Definition Qltb (a b : Q) : bool := negb (Qle_bool b a).
Definition Qneqb (a b : Q) : bool := negb (Qeq_bool a b).

Lemma Qltb_lt a b : Qltb a b = true <-> a < b.
Proof.
  unfold Qltb. rewrite negb_true_iff. split.
  - intros H. apply Qnot_le_lt. intros Hle. apply Qle_bool_iff in Hle. congruence.
  - intros H. destruct (Qle_bool b a) eqn:E; [|done].
    apply Qle_bool_iff in E. apply Qle_not_lt in E. contradiction.
Qed.

Lemma Qltb_ge a b : Qltb a b = false <-> b <= a.
Proof.
  unfold Qltb. rewrite negb_false_iff. apply Qle_bool_iff.
Qed.

Lemma Qneqb_neq a b : Qneqb a b = true <-> ~ a == b.
Proof.
  unfold Qneqb. rewrite negb_true_iff. split.
  - intros H Heq. apply Qeq_bool_iff in Heq. congruence.
  - intros H. destruct (Qeq_bool a b) eqn:E; [|done].
    apply Qeq_bool_iff in E. contradiction.
Qed.

Lemma Qneqb_eq a b : Qneqb a b = false <-> a == b.
Proof.
  unfold Qneqb. rewrite negb_false_iff. apply Qeq_bool_iff.
Qed.

(** A [pg.math.Vector2]. *)
Definition vec : Type := (Q * Q)%type.
Definition vx (v : vec) : Q := fst v.
Definition vy (v : vec) : Q := snd v.
Definition scale (c : Q) (v : vec) : vec := (vx v * c, vy v * c).
Definition norm2 (v : vec) : Q := vx v * vx v + vy v * vy v.

Lemma Qsquare_nonneg (s : Q) : 0 <= s * s.
Proof. destruct s as [n d]. unfold Qle, Qmult; cbn. nia. Qed.

End Floats.

(* ===================================================================== *)
(** ** The player of [player.py]                                          *)
(* ===================================================================== *)

Module PlayerStats.

Import Floats.
Open Scope Q_scope.

(** What a dictionary lookup raises when the key is not there. Keys of the
    arsenal are strings; [pickup_item] also looks it up at an integer. *)
Inductive exn :=
| KeyError (key : string)
| KeyErrorInt (key : Z)
| ZeroDivisionError.

Inductive Result (A : Type) : Type :=
| Ok (a : A)
| Raise (e : exn).
Arguments Ok {A} a.
Arguments Raise {A} e.

Definition bind {A B} (c : Result A) (k : A -> Result B) : Result B :=
  match c with
  | Ok a => k a
  | Raise e => Raise e
  end.

Notation "'let!' x ':=' c 'in' k" := (bind c (fun x => k))
  (at level 10, x name, c at level 100, k at level 200).

(** [d[key]] on a dictionary with string keys. *)
Definition getitem {V} (d : gmap string V) (key : string) : Result V :=
  match d !! key with
  | Some v => Ok v
  | None => Raise (KeyError key)
  end.

(** [self.arsenal] as [Player.__init__] builds it: for each weapon a
    dictionary from ['clip'], ['reloads'] and ['hasWeapon'] to numbers
    ([True] is 1, [False] is 0); the knife has the last key only. *)
Definition firearm_slot : gmap string Z :=
  <["clip" := 0%Z]> (<["reloads" := 0%Z]> (<["hasWeapon" := 0%Z]> ∅)).

Definition initial_arsenal : gmap string (gmap string Z) :=
  <["handgun" := firearm_slot]>
    (<["rifle" := firearm_slot]>
       (<["shotgun" := firearm_slot]>
          (<["knife" := <["hasWeapon" := 1%Z]> ∅]> ∅))).

(** [self.arsenal[w][field]]. *)
Definition arsenal_get (a : gmap string (gmap string Z)) (w field : string)
  : Result Z :=
  let! s := getitem a w in getitem s field.

(** [self.arsenal[w][field] = v]: the outer lookup can raise, the inner
    store cannot. *)
Definition arsenal_set (a : gmap string (gmap string Z)) (w field : string)
  (v : Z) : Result (gmap string (gmap string Z)) :=
  let! s := getitem a w in Ok (<[w := <[field := v]> s]> a).

(** The attributes of a [Player] that the modelled methods read or write.
    [heatlh] is the attribute that [pickup_item] creates (absent until
    then). Sprites, images, sounds and the melee box are left out. *)
Record Player := mkPlayer {
  health : Z;
  heatlh : option Z;
  stamina : Q;
  stamina_decrease_time : Z;
  stamina_increase_time : Z;
  weapon : string;
  action : string;
  arsenal : gmap string (gmap string Z);
  current_frame : Z;
  last_shot : Z;
  aim_wobble : Q;
  vel : vec;
  rot : Q;
  direction : string;
  play_static_animation : bool;
  canned_action : string
}.

Definition set_health (h : Z) (p : Player) : Player :=
  mkPlayer h (heatlh p) (stamina p) (stamina_decrease_time p)
    (stamina_increase_time p) (weapon p) (action p) (arsenal p)
    (current_frame p) (last_shot p) (aim_wobble p) (vel p) (rot p)
    (direction p) (play_static_animation p) (canned_action p).

Definition set_heatlh (h : Z) (p : Player) : Player :=
  mkPlayer (health p) (Some h) (stamina p) (stamina_decrease_time p)
    (stamina_increase_time p) (weapon p) (action p) (arsenal p)
    (current_frame p) (last_shot p) (aim_wobble p) (vel p) (rot p)
    (direction p) (play_static_animation p) (canned_action p).

Definition set_stamina (s : Q) (p : Player) : Player :=
  mkPlayer (health p) (heatlh p) s (stamina_decrease_time p)
    (stamina_increase_time p) (weapon p) (action p) (arsenal p)
    (current_frame p) (last_shot p) (aim_wobble p) (vel p) (rot p)
    (direction p) (play_static_animation p) (canned_action p).

Definition set_stamina_decrease_time (t : Z) (p : Player) : Player :=
  mkPlayer (health p) (heatlh p) (stamina p) t
    (stamina_increase_time p) (weapon p) (action p) (arsenal p)
    (current_frame p) (last_shot p) (aim_wobble p) (vel p) (rot p)
    (direction p) (play_static_animation p) (canned_action p).

Definition set_stamina_increase_time (t : Z) (p : Player) : Player :=
  mkPlayer (health p) (heatlh p) (stamina p) (stamina_decrease_time p)
    t (weapon p) (action p) (arsenal p)
    (current_frame p) (last_shot p) (aim_wobble p) (vel p) (rot p)
    (direction p) (play_static_animation p) (canned_action p).

Definition set_weapon (w : string) (p : Player) : Player :=
  mkPlayer (health p) (heatlh p) (stamina p) (stamina_decrease_time p)
    (stamina_increase_time p) w (action p) (arsenal p)
    (current_frame p) (last_shot p) (aim_wobble p) (vel p) (rot p)
    (direction p) (play_static_animation p) (canned_action p).

Definition set_action (a : string) (p : Player) : Player :=
  mkPlayer (health p) (heatlh p) (stamina p) (stamina_decrease_time p)
    (stamina_increase_time p) (weapon p) a (arsenal p)
    (current_frame p) (last_shot p) (aim_wobble p) (vel p) (rot p)
    (direction p) (play_static_animation p) (canned_action p).

Definition set_arsenal (a : gmap string (gmap string Z)) (p : Player) : Player :=
  mkPlayer (health p) (heatlh p) (stamina p) (stamina_decrease_time p)
    (stamina_increase_time p) (weapon p) (action p) a
    (current_frame p) (last_shot p) (aim_wobble p) (vel p) (rot p)
    (direction p) (play_static_animation p) (canned_action p).

Definition set_current_frame (f : Z) (p : Player) : Player :=
  mkPlayer (health p) (heatlh p) (stamina p) (stamina_decrease_time p)
    (stamina_increase_time p) (weapon p) (action p) (arsenal p)
    f (last_shot p) (aim_wobble p) (vel p) (rot p)
    (direction p) (play_static_animation p) (canned_action p).

Definition set_last_shot (t : Z) (p : Player) : Player :=
  mkPlayer (health p) (heatlh p) (stamina p) (stamina_decrease_time p)
    (stamina_increase_time p) (weapon p) (action p) (arsenal p)
    (current_frame p) t (aim_wobble p) (vel p) (rot p)
    (direction p) (play_static_animation p) (canned_action p).

Definition set_aim_wobble (w : Q) (p : Player) : Player :=
  mkPlayer (health p) (heatlh p) (stamina p) (stamina_decrease_time p)
    (stamina_increase_time p) (weapon p) (action p) (arsenal p)
    (current_frame p) (last_shot p) w (vel p) (rot p)
    (direction p) (play_static_animation p) (canned_action p).

Definition set_vel (v : vec) (p : Player) : Player :=
  mkPlayer (health p) (heatlh p) (stamina p) (stamina_decrease_time p)
    (stamina_increase_time p) (weapon p) (action p) (arsenal p)
    (current_frame p) (last_shot p) (aim_wobble p) v (rot p)
    (direction p) (play_static_animation p) (canned_action p).

Definition set_rot (r : Q) (p : Player) : Player :=
  mkPlayer (health p) (heatlh p) (stamina p) (stamina_decrease_time p)
    (stamina_increase_time p) (weapon p) (action p) (arsenal p)
    (current_frame p) (last_shot p) (aim_wobble p) (vel p) r
    (direction p) (play_static_animation p) (canned_action p).

Definition set_direction (d : string) (p : Player) : Player :=
  mkPlayer (health p) (heatlh p) (stamina p) (stamina_decrease_time p)
    (stamina_increase_time p) (weapon p) (action p) (arsenal p)
    (current_frame p) (last_shot p) (aim_wobble p) (vel p) (rot p)
    d (play_static_animation p) (canned_action p).

Definition set_play_static_animation (b : bool) (p : Player) : Player :=
  mkPlayer (health p) (heatlh p) (stamina p) (stamina_decrease_time p)
    (stamina_increase_time p) (weapon p) (action p) (arsenal p)
    (current_frame p) (last_shot p) (aim_wobble p) (vel p) (rot p)
    (direction p) b (canned_action p).

Definition set_canned_action (a : string) (p : Player) : Player :=
  mkPlayer (health p) (heatlh p) (stamina p) (stamina_decrease_time p)
    (stamina_increase_time p) (weapon p) (action p) (arsenal p)
    (current_frame p) (last_shot p) (aim_wobble p) (vel p) (rot p)
    (direction p) (play_static_animation p) a.

(** [Player.decrease_stamina], with [now] the clock value it reads. *)
Definition decrease_stamina (now : Z) (decrease_rate : Q) (p : Player) : Player :=
  if (now - stamina_decrease_time p >? 75)%Z then
    let p1 := set_stamina (stamina p - decrease_rate) p in
    let p2 := set_stamina_decrease_time now p1 in
    if Qltb (stamina p2) 0 then set_stamina 0 p2 else p2
  else p.

(** [Player.increase_stamina]. *)
Definition increase_stamina (now : Z) (increase_rate : Q) (p : Player) : Player :=
  if Qltb (stamina p) 100 then
    if (now - stamina_increase_time p >? 250)%Z then
      set_stamina_increase_time now (set_stamina (stamina p + increase_rate) p)
    else p
  else set_stamina 100 p.

(** An item the player walks over: a [WeaponPickup] with its [type] and
    [ammo_boost], or another pickup with its [type] and the boosts it
    carries. *)
Inductive Item :=
| WeaponPickup (type : string) (ammo_boost : Z)
| MiscPickup (type : string) (AMMO_BOOST HEALTH_BOOST : Z).

(** Truth value of a number in a condition. *)
Definition truthy (z : Z) : bool := negb (z =? 0)%Z.

(** [pg.key.get_pressed()], the keys the player reads. *)
Record Keys := mkKeys {
  K_SPACE : bool; K_a : bool; K_d : bool; K_w : bool; K_s : bool;
  K_r : bool; K_1 : bool; K_2 : bool; K_3 : bool; K_4 : bool
}.

(** What one frame reads from outside: the keys, the left and right mouse
    buttons, the angle from the player to the mouse (the value of
    [target_dist.angle_to(vec(1, 0))]) and the clock. The clock is read
    several times within a frame; all reads of one frame see [now]. *)
Record Input := mkInput {
  keys : Keys;
  lc : bool;
  rc : bool;
  mouse_angle : Q;
  now : Z
}.

Section Settings.

(** The constants of [settings.py] that the player uses, and the rotation
    of a vector by an angle in degrees ([Vector2.rotate]). *)
Variable PLAYER_HEALTH : Z.
Variable PLAYER_STAMINA : Q.
Variable PLAYER_SPEED : Q.
Variable weapon_rate : string -> Z.
Variable weapon_kickback : string -> Q.
Variable weapon_weight : string -> Q.
Variable weapon_wobble : string -> string -> Q.
Variable weapon_clip_size : string -> Z.
Variable rotate : vec -> Q -> vec.

(** The attributes that [Player.__init__] sets; the weapon and the action
    are the defaults of [Game.load_data]. *)
Definition init : Player :=
  {| health := PLAYER_HEALTH / 2;
     heatlh := None;
     stamina := PLAYER_STAMINA;
     stamina_decrease_time := 0;
     stamina_increase_time := 0;
     weapon := "knife";
     action := "idle";
     arsenal := initial_arsenal;
     current_frame := 0;
     last_shot := 0;
     aim_wobble := 0;
     vel := (0, 0);
     rot := 0;
     direction := "E";
     play_static_animation := false;
     canned_action := "" |}.

(** [Player.pickup_item]. The sounds are left out. In the ammunition
    branch with the knife drawn, [enumerate(self.arsenal)] yields the
    position 0 as [key], and [self.arsenal[0]] raises. *)
Definition pickup_item (item : Item) (p : Player) : Result Player :=
  match item with
  | WeaponPickup type ammo_boost =>
      let! has := arsenal_get (arsenal p) type "hasWeapon" in
      if truthy has then
        let! r := arsenal_get (arsenal p) type "reloads" in
        let! a := arsenal_set (arsenal p) type "reloads" (r + ammo_boost)%Z in
        Ok (set_arsenal a p)
      else
        let! a1 := arsenal_set (arsenal p) type "hasWeapon" 1%Z in
        let! a2 := arsenal_set a1 type "reloads" (ammo_boost - 1)%Z in
        let! a3 := arsenal_set a2 type "clip" (weapon_clip_size type) in
        Ok (set_arsenal a3 p)
  | MiscPickup type AMMO_BOOST HEALTH_BOOST =>
      if String.eqb type "ammo" then
        if String.eqb (weapon p) "knife" then
          if decide (arsenal p = ∅) then Raise (KeyError "")
          else Raise (KeyErrorInt 0)
        else
          let! r := arsenal_get (arsenal p) (weapon p) "reloads" in
          let! a := arsenal_set (arsenal p) (weapon p) "reloads" (r + AMMO_BOOST)%Z in
          Ok (set_arsenal a p)
      else
        let p1 := set_health (health p + HEALTH_BOOST)%Z p in
        Ok (if (health p1 >? PLAYER_HEALTH)%Z
            then set_heatlh PLAYER_HEALTH p1 else p1)
  end.

(** [1 / WEAPONS[w]['weight']]. *)
Definition inv_weight (w : string) : Result Q :=
  if Qeq_bool (weapon_weight w) 0 then Raise ZeroDivisionError
  else Ok (1 / weapon_weight w).

(** [Player.update_direction]. *)
Definition between (lo x hi : Q) : bool := Qltb lo x && Qle_bool x hi.

Definition update_direction (p : Player) : Player :=
  let r := rot p in
  if between (-(45#2)) r (45#2) then set_direction "E" p
  else if between (45#2) r (135#2) then set_direction "NE" p
  else if between (135#2) r (225#2) then set_direction "N" p
  else if between (225#2) r (315#2) then set_direction "NW" p
  else if between (315#2) r 180 || between (-(180)) r (-(315#2))
       then set_direction "W" p
  else if between (-(315#2)) r (-(225#2)) then set_direction "SW" p
  else if between (-(225#2)) r (-(135#2)) then set_direction "S" p
  else if between (-(135#2)) r (-(45#2)) then set_direction "SE" p
  else p.

(** [Player.update_rotation]. *)
Definition update_rotation (inp : Input) (p : Player) : Player :=
  update_direction (set_rot (mouse_angle inp + 2) p).

(** The block under one movement key while sprinting: one component of
    the velocity, the action, the wobble, the stamina. *)
Definition sprint_block (inp : Input) (setv : vec -> vec) (p : Player) : Player :=
  let p1 := set_vel (setv (vel p)) p in
  let p2 := set_action "move" p1 in
  let p3 := set_aim_wobble (weapon_wobble (weapon p2) "sprint") p2 in
  decrease_stamina (now inp) (weapon_weight (weapon p3) / 2) p3.

(** The block under one movement key while walking. *)
Definition walk_block (inp : Input) (setv : vec -> vec) (p : Player)
  : Result Player :=
  let p1 := set_vel (setv (vel p)) p in
  let p2 := set_action "move" p1 in
  let p3 := set_aim_wobble (weapon_wobble (weapon p2) "walk") p2 in
  let! r := inv_weight (weapon p3) in
  Ok (increase_stamina (now inp) r p3).

Definition set_x (x : Q) (v : vec) : vec := (x, vy v).
Definition set_y (y : Q) (v : vec) : vec := (vx v, y).

(** [Player.handle_player_movement]. *)
Definition handle_player_movement (inp : Input) (p : Player) : Result Player :=
  let k := keys inp in
  if K_SPACE k && Qltb 0 (stamina p) then
    let p := if K_a k then sprint_block inp (set_x (- PLAYER_SPEED * 2)) p else p in
    let p := if K_d k then sprint_block inp (set_x (PLAYER_SPEED * 2)) p else p in
    let p := if K_w k then sprint_block inp (set_y (- PLAYER_SPEED * 2)) p else p in
    let p := if K_s k then sprint_block inp (set_y (PLAYER_SPEED * 2)) p else p in
    Ok p
  else
    let! p := if K_a k then walk_block inp (set_x (- PLAYER_SPEED * 1)) p else Ok p in
    let! p := if K_d k then walk_block inp (set_x (PLAYER_SPEED * 1)) p else Ok p in
    let! p := if K_w k then walk_block inp (set_y (- PLAYER_SPEED * 1)) p else Ok p in
    let! p := if K_s k then walk_block inp (set_y (PLAYER_SPEED * 1)) p else Ok p in
    Ok p.

(** One arm of [handle_weapon_selection]: the key, then the arsenal, then
    the weapon in hand, tested in this order. *)
Definition wants (key : bool) (w : string) (p : Player) : Result bool :=
  if key then
    let! has := arsenal_get (arsenal p) w "hasWeapon" in
    Ok (truthy has && negb (String.eqb (weapon p) w))
  else Ok false.

Definition draw (w : string) (p : Player) : Player :=
  set_weapon w (set_current_frame 0 p).

(** [Player.handle_weapon_selection]. *)
Definition handle_weapon_selection (inp : Input) (p : Player) : Result Player :=
  let k := keys inp in
  let! rifle := wants (K_1 k) "rifle" p in
  if rifle then Ok (draw "rifle" p) else
  let! shotgun := wants (K_2 k) "shotgun" p in
  if shotgun then Ok (draw "shotgun" p) else
  let! handgun := wants (K_3 k) "handgun" p in
  if handgun then Ok (draw "handgun" p) else
  if K_4 k && negb (String.eqb (weapon p) "knife") then Ok (draw "knife" p)
  else Ok p.

(** The recoil that [shoot] gives the player. *)
Definition kick (p : Player) : vec :=
  rotate (- weapon_kickback (weapon p), 0) (- rot p).

(** [Player.shoot]. Bullets, sounds and the muzzle flash are left out. *)
Definition shoot (inp : Input) (p : Player) : Result Player :=
  if (now inp - last_shot p >? weapon_rate (weapon p))%Z then
    let p1 := set_last_shot (now inp) p in
    let p2 := set_vel (kick p1) p1 in
    let! c := arsenal_get (arsenal p2) (weapon p2) "clip" in
    let! a := arsenal_set (arsenal p2) (weapon p2) "clip" (c - 1)%Z in
    Ok (set_arsenal a p2)
  else Ok p.

(** [Player.reload]. *)
Definition reload (p : Player) : Result Player :=
  let! r := arsenal_get (arsenal p) (weapon p) "reloads" in
  let! a1 := arsenal_set (arsenal p) (weapon p) "reloads" (r - 1)%Z in
  let! a2 := arsenal_set a1 (weapon p) "clip" (weapon_clip_size (weapon p)) in
  let p1 := set_arsenal a2 p in
  let p2 := set_action "reload" p1 in
  let p3 := set_canned_action (action p2) p2 in
  let p4 := set_current_frame 0 p3 in
  Ok (set_play_static_animation true p4).

(** [Player.handle_combat_controls]; [swing_weapon] (the melee box) is
    left out. *)
Definition handle_combat_controls (inp : Input) (p : Player) : Result Player :=
  let! p :=
    if lc inp && negb (String.eqb (weapon p) "knife") then
      let! c := arsenal_get (arsenal p) (weapon p) "clip" in
      if negb (c =? 0)%Z then shoot inp (set_action "shoot" p)
      else
        let! r := arsenal_get (arsenal p) (weapon p) "reloads" in
        if (r >? 0)%Z then
          if negb (play_static_animation p) then reload p else Ok p
        else Ok p
    else Ok p in
  let! p :=
    if K_r (keys inp) && negb (String.eqb (weapon p) "knife")
       && negb (String.eqb (action p) "reload") then
      let! r := arsenal_get (arsenal p) (weapon p) "reloads" in
      if (r >? 0)%Z then reload p else Ok p
    else Ok p in
  if rc inp && negb (String.eqb (action p) "reload") && Qltb 0 (stamina p) then
    let p1 := set_action "melee" p in
    let p2 := set_current_frame 0 p1 in
    let p3 := set_canned_action (action p2) p2 in
    let p4 := set_play_static_animation true p3 in
    Ok (decrease_stamina (now inp) (weapon_weight (weapon p4)) p4)
  else Ok p.

(** [Player.process_input] up to the handlers of the keys and the mouse. *)
Definition handle_input (inp : Input) (p : Player) : Result Player :=
  let p := set_rot 0 p in
  let p := set_vel (0, 0) p in
  let p := set_action "idle" p in
  let p := set_aim_wobble 0 p in
  let p := update_rotation inp p in
  let! p := handle_player_movement inp p in
  if negb (play_static_animation p) then
    let! p := handle_weapon_selection inp p in
    handle_combat_controls inp p
  else Ok p.

(** [if self.vel.x != 0 and self.vel.y != 0: self.vel *= 0.7071]. *)
Definition is_diagonal (v : vec) : bool := Qneqb (vx v) 0 && Qneqb (vy v) 0.

Definition scale_diagonal (p : Player) : Player :=
  if is_diagonal (vel p) then set_vel (scale (7071 # 10000) (vel p)) p else p.

(** [if self.action == 'idle': ...], the end of [process_input]. *)
Definition rest_when_idle (inp : Input) (p : Player) : Result Player :=
  if String.eqb (action p) "idle" then
    let p1 := set_aim_wobble (weapon_wobble (weapon p) "idle") p in
    let! r := inv_weight (weapon p1) in
    Ok (increase_stamina (now inp) r p1)
  else Ok p.

(** [Player.process_input]. *)
Definition process_input (inp : Input) (p : Player) : Result Player :=
  let! p := handle_input inp p in
  rest_when_idle inp (scale_diagonal p).

(** *** Stamina *)

Lemma decrease_stamina_open now rate p :
  (now - stamina_decrease_time p > 75)%Z ->
  0 <= stamina (decrease_stamina now rate p)
  /\ (stamina p - rate < 0 -> stamina (decrease_stamina now rate p) = 0)
  /\ (0 <= stamina p - rate ->
      stamina (decrease_stamina now rate p) = stamina p - rate).
Proof.
  intros Hgate. unfold decrease_stamina.
  assert (Hg : (now - stamina_decrease_time p >? 75)%Z = true)
    by (apply Z.gtb_lt; lia).
  rewrite Hg; cbn.
  destruct (Qltb (stamina p - rate) 0) eqn:E; cbn.
  - apply Qltb_lt in E. split; [apply Qle_refl|]. split; intros H; [done|].
    apply Qle_not_lt in H. contradiction.
  - apply Qltb_ge in E. split; [done|]. split; [|done].
    intros H. apply Qle_not_lt in E. contradiction.
Qed.

Lemma decrease_stamina_closed now rate p :
  (now - stamina_decrease_time p <= 75)%Z -> decrease_stamina now rate p = p.
Proof.
  intros Hgate. unfold decrease_stamina.
  destruct (Z.gtb_spec (now - stamina_decrease_time p) 75); [lia|done].
Qed.

(** C8: a call of [decrease_stamina] with a rate that is not negative
    never leaves the stamina negative; where the subtraction goes below
    zero the stamina is set to 0. (Between two calls less than 76 ms apart
    the method changes nothing, so the stamina stays as it was.) *)
Theorem C8_decrease_stamina_never_negative now rate p :
  0 <= rate -> 0 <= stamina p ->
  0 <= stamina (decrease_stamina now rate p)
  /\ ((now - stamina_decrease_time p > 75)%Z -> stamina p - rate < 0 ->
      stamina (decrease_stamina now rate p) = 0).
Proof.
  intros _ Hs. destruct (Z_gt_le_dec (now - stamina_decrease_time p) 75) as [Hg|Hg].
  - destruct (decrease_stamina_open now rate p Hg) as (H1 & H2 & _). done.
  - rewrite (decrease_stamina_closed now rate p Hg). split; [done|lia].
Qed.

(** *** Health *)

(** C9 (fails on the code): after a health pickup the health must not
    exceed [PLAYER_HEALTH]. The method adds the boost and, where the sum
    exceeds [PLAYER_HEALTH], stores [PLAYER_HEALTH] in the attribute
    [heatlh]; the health keeps the sum. *)
Theorem C9_health_boost_is_not_clamped type ammo boost p :
  String.eqb type "ammo" = false ->
  (PLAYER_HEALTH < health p + boost)%Z ->
  exists p', pickup_item (MiscPickup type ammo boost) p = Ok p'
    /\ health p' = (health p + boost)%Z
    /\ (PLAYER_HEALTH < health p')%Z
    /\ heatlh p' = Some PLAYER_HEALTH.
Proof.
  intros Hty Hgt. unfold pickup_item. rewrite Hty. cbn.
  destruct (Z.gtb_spec (health p + boost) PLAYER_HEALTH); [|lia].
  eexists; split; [reflexivity|]. cbn. done.
Qed.

(** *** Velocity *)

(** What the stamina, the reload and the melee leave alone. *)
Definition same_gun (p q : Player) : Prop :=
  last_shot q = last_shot p /\ weapon q = weapon p /\ rot q = rot p.

Lemma same_gun_refl p : same_gun p p.
Proof. by unfold same_gun. Qed.

Lemma same_gun_trans p q r : same_gun p q -> same_gun q r -> same_gun p r.
Proof. unfold same_gun. intros (?&?&?) (?&?&?). repeat split; congruence. Qed.

Lemma decrease_stamina_keeps now rate p :
  vel (decrease_stamina now rate p) = vel p
  /\ same_gun p (decrease_stamina now rate p)
  /\ action (decrease_stamina now rate p) = action p.
Proof.
  unfold decrease_stamina, same_gun.
  destruct (_ >? _)%Z; [|done]. cbn. destruct (Qltb _ _); done.
Qed.

Lemma increase_stamina_keeps now rate p :
  vel (increase_stamina now rate p) = vel p
  /\ same_gun p (increase_stamina now rate p)
  /\ action (increase_stamina now rate p) = action p.
Proof.
  unfold increase_stamina, same_gun.
  destruct (Qltb _ _); [|done]. destruct (_ >? _)%Z; done.
Qed.

Lemma sprint_block_keeps inp f p :
  vel (sprint_block inp f p) = f (vel p) /\ same_gun p (sprint_block inp f p).
Proof.
  unfold sprint_block.
  match goal with
  | |- context [decrease_stamina ?n ?r ?q] =>
      destruct (decrease_stamina_keeps n r q) as (Hv & Hg & _)
  end.
  cbv zeta. rewrite Hv. split; [done|]. revert Hg. unfold same_gun. cbn. done.
Qed.

Lemma walk_block_keeps inp f p q :
  walk_block inp f p = Ok q -> vel q = f (vel p) /\ same_gun p q.
Proof.
  unfold walk_block. cbv zeta. destruct (inv_weight _) as [r|e]; [|done].
  cbn [bind]. intros [= <-].
  match goal with
  | |- context [increase_stamina ?n ?r ?q] =>
      destruct (increase_stamina_keeps n r q) as (Hv & Hg & _)
  end.
  rewrite Hv. split; [done|]. revert Hg. unfold same_gun. cbn. done.
Qed.

(** The speed along one axis for the keys of this frame: doubled while
    the space bar is down and stamina is left. *)
Definition speed (inp : Input) (p : Player) : Q :=
  if K_SPACE (keys inp) && Qltb 0 (stamina p)
  then PLAYER_SPEED * 2 else PLAYER_SPEED * 1.

(** A velocity component that the movement keys can produce. *)
Definition on_axis (s x : Q) : Prop := x == 0 \/ x == s \/ x == - s.

Lemma on_axis_zero s : on_axis s 0.
Proof. left. reflexivity. Qed.

Lemma on_axis_plus s : on_axis s s.
Proof. right. left. reflexivity. Qed.

Lemma on_axis_minus_2 : on_axis (PLAYER_SPEED * 2) (- PLAYER_SPEED * 2).
Proof. right. right. ring. Qed.

Lemma on_axis_minus_1 : on_axis (PLAYER_SPEED * 1) (- PLAYER_SPEED * 1).
Proof. right. right. ring. Qed.

Create HintDb axis.

Local Hint Resolve on_axis_zero on_axis_plus on_axis_minus_2 on_axis_minus_1
  same_gun_refl : axis.

Lemma handle_player_movement_keeps inp p q :
  handle_player_movement inp p = Ok q ->
  on_axis (speed inp p) (vx (vel p)) -> on_axis (speed inp p) (vy (vel p)) ->
  on_axis (speed inp p) (vx (vel q)) /\ on_axis (speed inp p) (vy (vel q))
  /\ same_gun p q.
Proof.
  unfold handle_player_movement, speed. cbv zeta.
  destruct (K_SPACE (keys inp) && Qltb 0 (stamina p)).
  - intros [= <-] Hx Hy.
    repeat match goal with
    | |- context [sprint_block ?i ?f ?r] =>
        let Hv := fresh "Hv" in let Hg := fresh "Hg" in
        destruct (sprint_block_keeps i f r) as (Hv & Hg);
        generalize dependent (sprint_block i f r); intros
    end.
    destruct (K_a (keys inp)), (K_d (keys inp)), (K_w (keys inp)),
      (K_s (keys inp));
      repeat match goal with
      | H : vel _ = _ |- _ => rewrite H; clear H
      end; cbn;
      (split; [|split]); eauto using same_gun_trans with axis.
  - intros H Hx Hy.
    repeat match type of H with
    | bind (if ?c then _ else _) _ = Ok _ => destruct c
    | bind (walk_block ?i ?f ?r) _ = Ok _ =>
        let E := fresh "E" in
        destruct (walk_block i f r) as [?|?] eqn:E; [|discriminate H];
        apply walk_block_keeps in E; destruct E as [? ?]
    | bind (Ok _) _ = Ok _ => cbn [bind] in H
    end;
    injection H as <-;
    repeat match goal with
    | H : vel _ = _ |- _ => rewrite H; clear H
    end; cbn;
    (split; [|split]); eauto using same_gun_trans with axis.
Qed.

Ltac invert_ok H :=
  repeat match type of H with
  | bind ?c _ = Ok _ =>
      let E := fresh "E" in
      destruct c as [?|?] eqn:E; cbn [bind] in H; [|discriminate H]
  | (if ?c then _ else _) = Ok _ => destruct c eqn:?
  | (let _ := _ in _) = Ok _ => cbv zeta in H
  | Raise _ = Ok _ => discriminate H
  end.

Lemma handle_weapon_selection_keeps inp p q :
  handle_weapon_selection inp p = Ok q ->
  vel q = vel p /\ rot q = rot p /\ action q = action p
  /\ play_static_animation q = play_static_animation p.
Proof.
  unfold handle_weapon_selection. intros H. cbv zeta in H.
  invert_ok H; injection H as <-; done.
Qed.

Lemma reload_keeps p q :
  reload p = Ok q -> vel q = vel p /\ same_gun p q.
Proof.
  unfold reload. intros H. invert_ok H. injection H as <-. done.
Qed.

Lemma shoot_keeps inp p q :
  shoot inp p = Ok q ->
  (vel q = vel p \/ vel q = kick q) /\ weapon q = weapon p /\ rot q = rot p.
Proof.
  unfold shoot. intros H. invert_ok H; injection H as <-.
  - split; [right|]; done.
  - split; [left|]; done.
Qed.

Lemma kick_same_gun p q : same_gun p q -> kick q = kick p.
Proof. unfold kick. intros (_ & -> & ->). done. Qed.

(** The velocity after the combat handler is the one before it or the
    recoil of a shot. *)
Lemma handle_combat_controls_keeps inp p q :
  handle_combat_controls inp p = Ok q ->
  vel q = vel p \/ vel q = kick q.
Proof.
  unfold handle_combat_controls. intros H.
  destruct (if lc inp && negb (String.eqb (weapon p) "knife") then _ else _)
    as [p1|] eqn:E1; cbn [bind] in H; [|done].
  destruct (if K_r (keys inp) && _ && _ then _ else _)
    as [p2|] eqn:E2; cbn [bind] in H; [|done].
  assert (H1 : (vel p1 = vel p \/ vel p1 = kick p1)
               /\ weapon p1 = weapon p /\ rot p1 = rot p).
  { clear E2 H. invert_ok E1.
    - apply shoot_keeps in E1. cbn in E1. done.
    - apply reload_keeps in E1. destruct E1 as (? & _ & ? & ?). auto.
    - injection E1 as <-. auto.
    - injection E1 as <-. auto.
    - injection E1 as <-. auto. }
  assert (H2 : vel p2 = vel p1 /\ same_gun p1 p2).
  { clear E1 H H1. invert_ok E2.
    - by apply reload_keeps in E2.
    - injection E2 as <-. auto with axis.
    - injection E2 as <-. auto with axis. }
  assert (H3 : vel q = vel p2 /\ same_gun p2 q).
  { clear E1 E2 H1 H2. invert_ok H; injection H as <-; [|auto with axis].
    cbv zeta.
    match goal with
    | |- context [decrease_stamina ?n ?r ?x] =>
        destruct (decrease_stamina_keeps n r x) as (Hv & Hg & _)
    end.
    rewrite Hv. split; [done|]. revert Hg. unfold same_gun. cbn. done. }
  destruct H1 as (H1 & _), H2 as (H2 & G2), H3 as (H3 & G3).
  rewrite H3, H2. destruct H1 as [->| ->]; [by left|right].
  symmetry. apply kick_same_gun. eauto using same_gun_trans.
Qed.

Lemma rest_when_idle_keeps inp p q :
  rest_when_idle inp p = Ok q -> vel q = vel p.
Proof.
  unfold rest_when_idle. intros H. invert_ok H; injection H as <-; [|done].
  cbv zeta.
  match goal with
  | |- context [increase_stamina ?n ?r ?x] =>
      destruct (increase_stamina_keeps n r x) as (Hv & _)
  end.
  by rewrite Hv.
Qed.

Lemma update_rotation_keeps inp p :
  vel (update_rotation inp p) = vel p
  /\ stamina (update_rotation inp p) = stamina p.
Proof.
  unfold update_rotation, update_direction. cbv zeta.
  repeat match goal with
  | |- context [if ?c then _ else _] => destruct c
  end; done.
Qed.

(** The velocity that the handlers leave is made of components that the
    movement keys produce, or it is the recoil of a shot. *)
Lemma handle_input_velocity inp p q :
  handle_input inp p = Ok q ->
  (on_axis (speed inp p) (vx (vel q)) /\ on_axis (speed inp p) (vy (vel q)))
  \/ vel q = kick q.
Proof.
  unfold handle_input. cbv zeta. intros H.
  match type of H with
  | context [update_rotation inp ?x] =>
      destruct (update_rotation_keeps inp x) as (Hv & Hs);
      set (p0 := update_rotation inp x) in *
  end.
  cbn in Hv, Hs.
  destruct (handle_player_movement inp p0) as [p1|] eqn:E1;
    cbn [bind] in H; [|done].
  apply handle_player_movement_keeps in E1;
    [|rewrite Hv; auto with axis..].
  assert (Hsp : speed inp p0 = speed inp p) by (unfold speed; by rewrite Hs).
  rewrite Hsp in E1. destruct E1 as (Hx & Hy & _).
  destruct (negb (play_static_animation p1)).
  - destruct (handle_weapon_selection inp p1) as [p2|] eqn:E2;
      cbn [bind] in H; [|done].
    apply handle_weapon_selection_keeps in E2. destruct E2 as (Hv2 & _).
    apply handle_combat_controls_keeps in H. destruct H as [H|H].
    + left. rewrite H, Hv2. done.
    + by right.
  - injection H as <-. by left.
Qed.

(** The factor 0.7071 shortens a vector with two equal components to less
    than one of them. *)
Lemma scaled_diagonal_within s x y :
  on_axis s x -> on_axis s y ->
  norm2 (scale (7071 # 10000) (x, y)) <= s * s.
Proof.
  unfold norm2, scale, vx, vy; cbn [fst snd].
  assert (Hsq : forall z, on_axis s z -> z * z == 0 \/ z * z == s * s).
  { intros z [Hz|[Hz|Hz]]; rewrite Hz; [left|right|right]; ring. }
  intros Hx Hy. apply Hsq in Hx, Hy.
  pose proof (Qsquare_nonneg s) as H0.
  assert (E : x * (7071 # 10000) * (x * (7071 # 10000))
              + y * (7071 # 10000) * (y * (7071 # 10000))
              == (49999041 # 100000000) * (x * x + y * y)) by ring.
  rewrite E. destruct Hx as [Hx|Hx], Hy as [Hy|Hy]; rewrite Hx, Hy;
    clear -H0; set (t := s * s) in *; clearbody t; lra.
Qed.

Lemma straight_within s x y :
  on_axis s x -> on_axis s y -> x == 0 \/ y == 0 ->
  norm2 (x, y) <= s * s.
Proof.
  unfold norm2, vx, vy; cbn [fst snd].
  assert (Hsq : forall z, on_axis s z -> z * z == 0 \/ z * z == s * s).
  { intros z [Hz|[Hz|Hz]]; rewrite Hz; [left|right|right]; ring. }
  intros Hx Hy Hz. apply Hsq in Hx, Hy.
  pose proof (Qsquare_nonneg s) as H0.
  destruct Hz as [Hz|Hz].
  - assert (E : x * x == 0) by (rewrite Hz; ring).
    rewrite E. destruct Hy as [Hy|Hy]; rewrite Hy;
      clear -H0; set (t := s * s) in *; clearbody t; lra.
  - assert (E : y * y == 0) by (rewrite Hz; ring).
    rewrite E. destruct Hx as [Hx|Hx]; rewrite Hx;
      clear -H0; set (t := s * s) in *; clearbody t; lra.
Qed.

(** C10: in every frame of [process_input], a velocity that the handlers
    leave with both components non-zero is multiplied by 0.7071 (and one
    with a zero component is left as it is), so that the velocity of a
    diagonal move is not longer than the speed along one axis for the same
    keys. The one velocity that does not come from the movement keys is
    the recoil of a shot fired in this frame. *)
Theorem C10_diagonal_velocity_is_scaled inp p p' :
  process_input inp p = Ok p' ->
  exists p1, handle_input inp p = Ok p1
    /\ (~ vx (vel p1) == 0 -> ~ vy (vel p1) == 0 ->
        vel p' = scale (7071 # 10000) (vel p1))
    /\ (vx (vel p1) == 0 \/ vy (vel p1) == 0 -> vel p' = vel p1)
    /\ (vel p1 = kick p1
        \/ norm2 (vel p') <= speed inp p * speed inp p).
Proof.
  unfold process_input. intros H.
  destruct (handle_input inp p) as [p1|] eqn:E; cbn [bind] in H; [|done].
  exists p1. split; [done|].
  apply rest_when_idle_keeps in H. rewrite H. clear H.
  unfold scale_diagonal, is_diagonal.
  destruct (Qneqb (vx (vel p1)) 0) eqn:Ex, (Qneqb (vy (vel p1)) 0) eqn:Ey;
    cbn [andb];
    repeat match goal with
    | H : Qneqb _ _ = true |- _ => apply Qneqb_neq in H
    | H : Qneqb _ _ = false |- _ => apply Qneqb_eq in H
    end;
    (split; [|split]);
    try (cbn; tauto);
    (destruct (handle_input_velocity inp p E) as [[Hx Hy]|Hk]; [right|by left]).
  - cbn [vel set_vel]. destruct (vel p1) as [x y].
    by apply scaled_diagonal_within.
  - destruct (vel p1) as [x y]. apply straight_within; auto.
  - destruct (vel p1) as [x y]. apply straight_within; auto.
  - destruct (vel p1) as [x y]. apply straight_within; auto.
Qed.

End Settings.

(** *** A frame with concrete settings *)

(** Settings for the examples: 100 health and stamina, 300 pixels per
    second, every weapon alike. No shot is fired in the examples, so the
    rotation is never consulted. *)
Definition no_rotate (v : vec) (angle : Q) : vec := v.

Definition rate_all (w : string) : Z := 150.
Definition kickback_all (w : string) : Q := 200.
Definition weight_all (w : string) : Q := 2.
Definition wobble_all (w act : string) : Q := 5.
Definition clip_size_all (w : string) : Z := 6.

Definition example_init : Player := init 100 100.

(** The keys [a] and [w] held down, 16 ms after the level started. *)
Definition up_left : Input :=
  {| keys := mkKeys false true false true false false false false false false;
     lc := false; rc := false; mouse_angle := 0; now := 16 |}.

Definition after_up_left : Player :=
  Eval vm_compute in
    match process_input 300 rate_all kickback_all weight_all wobble_all
      clip_size_all no_rotate up_left example_init with
    | Ok q => q
    | Raise _ => example_init
    end.

Lemma C10_diagonal_velocity_witness :
  process_input 300 rate_all kickback_all weight_all wobble_all
      clip_size_all no_rotate up_left example_init = Ok after_up_left
  /\ exists p1,
      handle_input 300 rate_all kickback_all weight_all wobble_all
        clip_size_all no_rotate up_left example_init = Ok p1
      /\ (~ vx (vel p1) == 0 -> ~ vy (vel p1) == 0 ->
          vel after_up_left = scale (7071 # 10000) (vel p1))
      /\ (vx (vel p1) == 0 \/ vy (vel p1) == 0 -> vel after_up_left = vel p1)
      /\ (vel p1 = kick kickback_all no_rotate p1
          \/ norm2 (vel after_up_left)
             <= speed 300 up_left example_init * speed 300 up_left example_init).
Proof.
  assert (H : process_input 300 rate_all kickback_all weight_all wobble_all
      clip_size_all no_rotate up_left example_init = Ok after_up_left)
    by (vm_compute; reflexivity).
  split; [exact H|].
  exact (@C10_diagonal_velocity_is_scaled 300 rate_all kickback_all weight_all
           wobble_all clip_size_all no_rotate up_left example_init after_up_left H).
Defined.

(** A sprint that uses up the last stamina. *)
Definition tired : Player := set_stamina (1 # 2) example_init.

Lemma C8_decrease_stamina_witness :
  0 <= 1 /\ 0 <= stamina tired
  /\ 0 <= stamina (decrease_stamina 100 1 tired)
  /\ ((100 - stamina_decrease_time tired > 75)%Z -> stamina tired - 1 < 0 ->
      stamina (decrease_stamina 100 1 tired) = 0).
Proof.
  assert (H1 : 0 <= 1) by (vm_compute; discriminate).
  assert (H2 : 0 <= stamina tired) by (vm_compute; discriminate).
  split; [exact H1|]. split; [exact H2|].
  exact (@C8_decrease_stamina_never_negative 100 1 tired H1 H2).
Defined.

(** A player at 90 of 100 health who picks up a first-aid kit worth 20. *)
Definition hurt : Player := set_health 90 example_init.

Lemma C9_health_boost_witness :
  String.eqb "health" "ammo" = false
  /\ (100 < health hurt + 20)%Z
  /\ exists p', pickup_item 100 clip_size_all (MiscPickup "health" 0 20) hurt = Ok p'
      /\ health p' = (health hurt + 20)%Z
      /\ (100 < health p')%Z
      /\ heatlh p' = Some 100%Z.
Proof.
  assert (H1 : String.eqb "health" "ammo" = false) by reflexivity.
  assert (H2 : (100 < health hurt + 20)%Z) by (vm_compute; reflexivity).
  split; [exact H1|]. split; [exact H2|].
  exact (@C9_health_boost_is_not_clamped 100 clip_size_all "health" 0 20 hurt H1 H2).
Defined.

(** The same pickup, evaluated: the health is 110, above the 100 that
    [PLAYER_HEALTH] allows. *)
Example hurt_after_pickup :
  health <$> (match pickup_item 100 clip_size_all (MiscPickup "health" 0 20) hurt with
              | Ok q => Some q | Raise _ => None end) = Some 110%Z.
Proof. reflexivity. Qed.

End PlayerStats.

(* ===================================================================== *)
(** ** Movement and collision: the end of [Player.update]                 *)
(* ===================================================================== *)

Module Motion.

Import Floats.
Open Scope Q_scope.
Unset Implicit Arguments.

(** A [pg.Rect]: the corner [x], [y] and the size [w], [h]. Coordinates
    are rationals; the rounding of a rectangle to whole pixels is not
    modelled. *)
Record Rect := mkRect { rx : Q; ry : Q; rw : Q; rh : Q }.

(** The axis argument ['x'] or ['y'] of the resolver. *)
Inductive Axis := X | Y.

Definition other (ax : Axis) : Axis := match ax with X => Y | Y => X end.

(** The near edge, the extent, the far edge and the centre of a rectangle
    along an axis ([left]/[top], [width]/[height], [right]/[bottom],
    [centerx]/[centery]). *)
Definition lo (ax : Axis) (r : Rect) : Q := match ax with X => rx r | Y => ry r end.
Definition len (ax : Axis) (r : Rect) : Q := match ax with X => rw r | Y => rh r end.
Definition hi (ax : Axis) (r : Rect) : Q := lo ax r + len ax r.
Definition center (ax : Axis) (r : Rect) : Q := lo ax r + len ax r / 2.

Definition set_lo (ax : Axis) (v : Q) (r : Rect) : Rect :=
  match ax with
  | X => mkRect v (ry r) (rw r) (rh r)
  | Y => mkRect (rx r) v (rw r) (rh r)
  end.

(** [rect.centerx = c] and [rect.centery = c]: the rectangle moves, its
    size stays. *)
Definition set_center (ax : Axis) (c : Q) (r : Rect) : Rect :=
  set_lo ax (c - len ax r / 2) r.

Definition along (ax : Axis) (v : vec) : Q := match ax with X => vx v | Y => vy v end.

Definition set_along (ax : Axis) (c : Q) (v : vec) : vec :=
  match ax with X => (c, vy v) | Y => (vx v, c) end.

(** What the movement code of a sprite reads and writes: [pos], [vel],
    [hit_rect] and the centre of the drawing rectangle [rect]. *)
Record Sprite := mkSprite {
  pos : vec;
  vel : vec;
  hit_rect : Rect;
  rect_center : vec
}.

Definition set_pos (v : vec) (s : Sprite) : Sprite :=
  mkSprite v (vel s) (hit_rect s) (rect_center s).
Definition set_hit_rect (r : Rect) (s : Sprite) : Sprite :=
  mkSprite (pos s) (vel s) r (rect_center s).

(** *** The resolver *)

(** A rectangle without area. *)
Definition degenerate (r : Rect) : bool := Qeq_bool (rw r * rh r) 0.

(** Two rectangles share an interval of positive length along [ax]. *)
Definition meets (ax : Axis) (a b : Rect) : bool :=
  Qltb (lo ax a) (hi ax b) && Qltb (lo ax b) (hi ax a).

(** Modelled from the spec: the overlap test of the resolver, which is
    part of [core_functions.py] and not among the sources. Two rectangles
    overlap when they share area; a rectangle without area overlaps
    nothing (section 4.4: degenerate rectangles are a no-op). *)
Definition overlaps (a b : Rect) : bool :=
  negb (degenerate a) && negb (degenerate b) && meets X a b && meets Y a b.

(** The direction in which a sprite travels along an axis. *)
Inductive Travel := Forward | Backward.

Definition travel (ax : Axis) (s : Sprite) : option Travel :=
  if Qltb 0 (along ax (vel s)) then Some Forward
  else if Qltb (along ax (vel s)) 0 then Some Backward
  else None.

(** Modelled from the spec: the displacement along [ax] that takes the
    rectangle [r] to the near edge of the obstacle [o], against the
    direction of travel (section 4.4). *)
Definition correction (d : Travel) (ax : Axis) (r o : Rect) : Q :=
  match d with
  | Forward => lo ax o - hi ax r
  | Backward => hi ax o - lo ax r
  end.

Definition push (d : Travel) (ax : Axis) (r o : Rect) : Rect :=
  set_lo ax (lo ax r + correction d ax r o) r.

(** Obstacles in the order of a key, smallest first; equal keys keep the
    order of the list. *)
Fixpoint insert_by (key : Rect -> Q) (o : Rect) (l : list Rect) : list Rect :=
  match l with
  | [] => [o]
  | h :: t => if Qle_bool (key o) (key h) then o :: l else h :: insert_by key o t
  end.

Definition sort_by (key : Rect -> Q) (l : list Rect) : list Rect :=
  foldr (insert_by key) [] l.

(** Modelled from the spec: the obstacles that the rectangle overlaps, in
    the order in which their corrections are applied, the smallest
    correction first (section 4.4). *)
Definition plan (d : Travel) (ax : Axis) (r : Rect) (walls : list Rect) : list Rect :=
  sort_by (fun o => Qabs (correction d ax r o))
          (filter (fun o => overlaps r o = true) walls).

(** One correction: the rectangle goes to the near edge of the obstacle
    if it still overlaps it. *)
Definition apply_one (d : Travel) (ax : Axis) (c o : Rect) : Rect :=
  if overlaps c o then push d ax c o else c.

(** Modelled from the spec: [collide_with_obstacles(sprite, group, dir)]
    of [core_functions.py], which is not among the sources, after
    section 4.4 of the specification ([resolve]). It finds the obstacles
    that the hit rectangle overlaps, applies their corrections along the
    axis, the smallest first, and writes the corrected coordinate into the
    position and the hit rectangle. No overlapping obstacle is a no-op, and
    so is a sprite that does not travel along the axis: the specification
    defines the correction against the direction of travel only. *)
Definition collide_with_obstacles (s : Sprite) (walls : list Rect) (ax : Axis)
  : Sprite :=
  match travel ax s with
  | None => s
  | Some d =>
      match plan d ax (hit_rect s) walls with
      | [] => s
      | hits =>
          let c := fold_left (apply_one d ax) hits (hit_rect s) in
          set_hit_rect c (set_pos (set_along ax (center ax c) (pos s)) s)
      end
  end.

(** *** What the resolver achieves *)




















(** The order of the corrections. *)










(** *** [Player.update] *)

(** One call of the resolver as the frame makes it: the axis and the
    sprite that is handed over. *)
Definition Call : Type := (Axis * Sprite)%type.

(** A step of the frame together with the calls it made. *)
Definition Logged (A : Type) : Type := (A * list Call)%type.


Definition then_ {A B} (c : Logged A) (k : A -> Logged B) : Logged B :=
  let (a, l1) := c in let (b, l2) := k a in (b, l1 ++ l2).

Notation "'call!' x ':=' c 'in' k" := (then_ c (fun x => k))
  (at level 10, x name, c at level 100, k at level 200).

Section Update.

(** The resolver that the frame calls, and the walls of the level. *)
Variable collide : Sprite -> list Rect -> Axis -> Sprite.
Variable walls : list Rect.




Lemma set_center_keeps ax c r :
  lo (other ax) (set_center ax c r) = lo (other ax) r
  /\ len X (set_center ax c r) = len X r
  /\ len Y (set_center ax c r) = len Y r.
Proof. by destruct ax. Qed.

Lemma center_set_center ax c r : center ax (set_center ax c r) == c.
Proof. destruct ax; unfold center, set_center; cbn; ring. Qed.


End Update.

(** *** Two obstacles with a gap *)





(** The scenario of the specification: a sprite moving right into a 32 by
    32 obstacle whose left edge is at 200 ends with its right edge at 200
    and its [y] coordinate as before. *)
Example right_edge_at_200 :
  let s := {| pos := (195, 50); vel := (100, 0);
              hit_rect := mkRect 185 40 20 20; rect_center := (195, 50) |} in
  let s' := collide_with_obstacles s [mkRect 200 30 32 32] X in
  hi X (hit_rect s') == 200 /\ vy (pos s') = vy (pos s)
  /\ vx (pos s') == 190.
Proof. cbn. repeat split; reflexivity. Qed.

(** *** A frame without walls *)



End Motion.

(* ===================================================================== *)
(** ** Path finding: [Game.find_path] and the search behind it           *)
(* ===================================================================== *)

Module Pathfinding.

Import Floats.
Open Scope Q_scope.
Unset Implicit Arguments.

(** A tile: column and row. *)
Definition Tile : Type := (Z * Z)%type.

(** An entry of the frontier: its priority [f = g + h] and its tile. The
    frontier is the list of its entries in the order of their insertion. *)
Definition Entry : Type := (Q * Tile)%type.
Definition prio (e : Entry) : Q := fst e.
Definition tile (e : Entry) : Tile := snd e.

(** The state of a search: the frontier, the predecessor map (the start
    has no predecessor) and the cost-so-far map (a tile without an entry
    has cost +infinity). *)
Record State := mkState {
  frontier : list Entry;
  came_from : gmap Tile (option Tile);
  cost_so_far : gmap Tile Q
}.

(** What a search returns: the way points from start to goal, or one of
    the two failure signals. *)
Inductive Outcome :=
| Found (path : list vec)
| NotFound
| InvalidEndpoint.

(** A search that is under way or that has returned. *)
Inductive Config :=
| Running (st : State)
| Done (out : Outcome).

(** *** The frontier *)

(** Modelled from the spec: the tie-break policy of the frontier, which is
    part of [pathfinding.py] and not among the sources (section 4.2). The
    entry that leaves the frontier has the least priority, and of the
    entries with that priority it is the one inserted first. *)
Definition pops (fr : list Entry) (e : Entry) (fr' : list Entry) : Prop :=
  exists l1 l2, fr = l1 ++ e :: l2 /\ fr' = l1 ++ l2
    /\ (forall x, In x l1 -> prio e < prio x)
    /\ (forall x, In x l2 -> prio e <= prio x).

(** A frontier without the tie-break: any entry of least priority may
    leave. *)
Definition pops_any (fr : list Entry) (e : Entry) (fr' : list Entry) : Prop :=
  exists l1 l2, fr = l1 ++ e :: l2 /\ fr' = l1 ++ l2
    /\ (forall x, In x l1 -> prio e <= prio x)
    /\ (forall x, In x l2 -> prio e <= prio x).

(** The policy as a function: the first entry of least priority. *)
Fixpoint pop_min (fr : list Entry) : option (Entry * list Entry) :=
  match fr with
  | [] => None
  | x :: l =>
      match pop_min l with
      | None => Some (x, [])
      | Some (m, l') =>
          if Qle_bool (prio x) (prio m) then Some (x, l) else Some (m, x :: l')
      end
  end.

(** The last entry of least priority: another frontier that is allowed
    when ties are not broken. *)
Fixpoint pop_min_last (fr : list Entry) : option (Entry * list Entry) :=
  match fr with
  | [] => None
  | x :: l =>
      match pop_min_last l with
      | None => Some (x, [])
      | Some (m, l') =>
          if Qltb (prio x) (prio m) then Some (x, l) else Some (m, x :: l')
      end
  end.

(** The policy leaves no choice. *)
Lemma pops_functional fr e1 fr1 e2 fr2 :
  pops fr e1 fr1 -> pops fr e2 fr2 -> e1 = e2 /\ fr1 = fr2.
Proof.
  intros (l1 & l2 & E1 & E2 & Ha & Hb) (k1 & k2 & Heq & E3 & Hc & Hd).
  subst fr fr1 fr2. revert k1 Heq Hc. induction l1 as [|y l1 IH]; intros [|z k1] Heq Hc.
  - cbn in Heq. injection Heq as -> ->. done.
  - cbn in Heq. injection Heq as -> ->.
    assert (H1 : prio e2 < prio z) by (apply Hc; by left).
    assert (H2 : prio z <= prio e2)
      by (apply Hb, in_or_app; right; by left).
    lra.
  - cbn in Heq. injection Heq as -> <-.
    assert (H1 : prio e1 < prio e2) by (apply Ha; by left).
    assert (H2 : prio e2 <= prio e1)
      by (apply Hd, in_or_app; right; by left).
    lra.
  - cbn in Heq. injection Heq as -> Heq.
    destruct (IH (fun x Hx => Ha x (or_intror Hx)) k1 Heq
                 (fun x Hx => Hc x (or_intror Hx))) as [-> E].
    split; [done|]. cbn. by rewrite E.
Qed.

Lemma pop_min_none fr : pop_min fr = None -> fr = [].
Proof.
  destruct fr as [|x l]; [done|]. cbn.
  destruct (pop_min l) as [[m l']|]; [|done].
  destruct (Qle_bool (prio x) (prio m)); done.
Qed.

Lemma pop_min_pops fr e fr' : pop_min fr = Some (e, fr') -> pops fr e fr'.
Proof.
  revert e fr'. induction fr as [|x l IH]; intros e fr' H; [done|].
  cbn in H. destruct (pop_min l) as [[m l']|] eqn:E.
  - destruct (IH m l' eq_refl) as (a & b & -> & -> & Ha & Hb).
    destruct (Qle_bool (prio x) (prio m)) eqn:Hle; injection H as <- <-.
    + apply Qle_bool_iff in Hle. exists [], (a ++ m :: b).
      repeat split; [intros ? []|].
      intros y Hy. apply in_app_or in Hy. destruct Hy as [Hy|[<-|Hy]].
      * specialize (Ha y Hy). lra.
      * done.
      * specialize (Hb y Hy). lra.
    + assert (Hlt : prio m < prio x).
      { destruct (Qlt_le_dec (prio m) (prio x)) as [?|Hle']; [done|].
        apply Qle_bool_iff in Hle'. congruence. }
      exists (x :: a), b. repeat split; [|done].
      intros y [<-|Hy]; [done|by apply Ha].
  - injection H as <- <-. apply pop_min_none in E. subst l.
    exists [], []. repeat split; intros ? [].
Qed.

Lemma pops_pops_any fr e fr' : pops fr e fr' -> pops_any fr e fr'.
Proof.
  intros (l1 & l2 & -> & -> & Ha & Hb). exists l1, l2.
  repeat split; [|done]. intros x Hx. specialize (Ha x Hx). lra.
Qed.

Lemma pop_min_last_none fr : pop_min_last fr = None -> fr = [].
Proof.
  destruct fr as [|x l]; [done|]. cbn.
  destruct (pop_min_last l) as [[m l']|]; [|done].
  destruct (Qltb (prio x) (prio m)); done.
Qed.

Lemma pop_min_last_pops_any fr e fr' :
  pop_min_last fr = Some (e, fr') -> pops_any fr e fr'.
Proof.
  revert e fr'. induction fr as [|x l IH]; intros e fr' H; [done|].
  cbn in H. destruct (pop_min_last l) as [[m l']|] eqn:E.
  - destruct (IH m l' eq_refl) as (a & b & -> & -> & Ha & Hb).
    destruct (Qltb (prio x) (prio m)) eqn:Hlt; injection H as <- <-.
    + apply Qltb_lt in Hlt. exists [], (a ++ m :: b).
      repeat split; [intros ? []|].
      intros y Hy. apply in_app_or in Hy. destruct Hy as [Hy|[<-|Hy]].
      * specialize (Ha y Hy). lra.
      * lra.
      * specialize (Hb y Hy). lra.
    + apply Qltb_ge in Hlt. exists (x :: a), b. repeat split; [|done].
      intros y [<-|Hy]; [done|by apply Ha].
  - injection H as <- <-. apply pop_min_last_none in E. subst l.
    exists [], []. repeat split; intros ? [].
Qed.

Section Search.

(** The graph and the heuristic of a search: the passable tiles, the
    neighbours of a tile with the cost of the move, and the estimate of
    the distance to the goal. The specification leaves the neighbour
    policy open (4 or 8 directions); the search is the same for each. *)
Variable valid : Tile -> bool.
Variable neighbors : Tile -> list (Tile * Q).
Variable heuristic : Tile -> Tile -> Q.

(** The size of a tile and the centre of a tile in world space. *)
Variable TILESIZE : Q.

Definition tile_center (t : Tile) : vec :=
  (inject_Z (fst t) * TILESIZE + TILESIZE / 2,
   inject_Z (snd t) * TILESIZE + TILESIZE / 2).

(** One neighbour of the expanded tile: it is taken up when it has no cost
    yet or the new cost is smaller. *)
Definition relax (goal current : Tile) (st : State) (nc : Tile * Q) : State :=
  let (next, c) := nc in
  match cost_so_far st !! current with
  | None => st
  | Some g =>
      let new_cost := g + c in
      let better := match cost_so_far st !! next with
                    | None => true
                    | Some old => Qltb new_cost old
                    end in
      if better then
        {| frontier := frontier st ++ [(new_cost + heuristic goal next, next)];
           came_from := <[next := Some current]> (came_from st);
           cost_so_far := <[next := new_cost]> (cost_so_far st) |}
      else st
  end.

Definition expand (goal current : Tile) (st : State) : State :=
  fold_left (relax goal current) (neighbors current) st.

(** The predecessor chain from the goal back, in start-to-goal order. *)
Fixpoint back (fuel : nat) (cf : gmap Tile (option Tile)) (current : Tile)
  (acc : list Tile) : list Tile :=
  match fuel with
  | O => current :: acc
  | S n =>
      match cf !! current with
      | Some (Some prev) => back n cf prev (current :: acc)
      | _ => current :: acc
      end
  end.

Definition path_of (st : State) (goal : Tile) : list vec :=
  tile_center <$> back (size (came_from st)) (came_from st) goal [].

Definition with_frontier (fr : list Entry) (st : State) : State :=
  {| frontier := fr; came_from := came_from st; cost_so_far := cost_so_far st |}.

(** Modelled from the spec: the configuration in which
    [Pathfinder.a_star_search(graph, start, goal)] starts. The method is
    part of [pathfinding.py] and not among the sources; this and [step]
    follow section 4.2 (A-star with a cost-so-far map and a predecessor
    map; an end point that is blocked or out of bounds fails at once). *)
Definition start_config (start goal : Tile) : Config :=
  if valid start && valid goal then
    Running {| frontier := [(0, start)];
               came_from := {[ start := None ]};
               cost_so_far := {[ start := 0 ]} |}
  else Done InvalidEndpoint.

(** Modelled from the spec: one turn of the loop of the search, for a
    frontier that hands out its entries by [pop]. An empty frontier ends
    the search with [NotFound]; the goal leaving the frontier ends it with
    the path; any other tile is expanded. A search that has returned
    stays as it is. *)
Inductive step (pop : list Entry -> Entry -> list Entry -> Prop) (goal : Tile)
  : Config -> Config -> Prop :=
| step_done out : step pop goal (Done out) (Done out)
| step_empty st :
    frontier st = [] -> step pop goal (Running st) (Done NotFound)
| step_goal st e fr' :
    pop (frontier st) e fr' -> tile e = goal ->
    step pop goal (Running st) (Done (Found (path_of st goal)))
| step_expand st e fr' :
    pop (frontier st) e fr' -> tile e <> goal ->
    step pop goal (Running st)
      (Running (expand goal (tile e) (with_frontier fr' st))).

Inductive steps (pop : list Entry -> Entry -> list Entry -> Prop) (goal : Tile)
  : nat -> Config -> Config -> Prop :=
| steps_O c : steps pop goal O c c
| steps_S n c c' c'' :
    step pop goal c c' -> steps pop goal n c' c'' ->
    steps pop goal (S n) c c''.

(** The search returns [out]. *)
Definition returns (pop : list Entry -> Entry -> list Entry -> Prop)
  (start goal : Tile) (out : Outcome) : Prop :=
  exists n, steps pop goal n (start_config start goal) (Done out).

(** The loop as a function, for a frontier given as a function. *)
Definition turn (popf : list Entry -> option (Entry * list Entry)) (goal : Tile)
  (c : Config) : Config :=
  match c with
  | Done out => Done out
  | Running st =>
      match popf (frontier st) with
      | None => Done NotFound
      | Some (e, fr') =>
          if decide (tile e = goal) then Done (Found (path_of st goal))
          else Running (expand goal (tile e) (with_frontier fr' st))
      end
  end.

Fixpoint run (popf : list Entry -> option (Entry * list Entry)) (goal : Tile)
  (n : nat) (c : Config) : Config :=
  match n with
  | O => c
  | S n' => run popf goal n' (turn popf goal c)
  end.

(** [a_star_search] allowed to make [fuel] turns of its loop. *)
Definition a_star_search (fuel : nat) (start goal : Tile) : Config :=
  run pop_min goal fuel (start_config start goal).

(** *** [Game.find_path] *)

(** [vec(p.x // TILESIZE, p.y // TILESIZE)]. *)
Definition tile_of (p : vec) : Tile :=
  (Qfloor (vx p / TILESIZE), Qfloor (vy p / TILESIZE)).

(** [Game.find_path(predator, prey)], given the positions of the two. *)
Definition find_path (fuel : nat) (predator prey : vec) : Config :=
  a_star_search fuel (tile_of predator) (tile_of prey).


(** *** Determinism *)

(** A frontier function that follows a policy. *)
Definition follows (popf : list Entry -> option (Entry * list Entry))
  (pop : list Entry -> Entry -> list Entry -> Prop) : Prop :=
  forall fr, match popf fr with
             | Some (e, fr') => pop fr e fr'
             | None => fr = []
             end.

Lemma pop_min_follows : follows pop_min pops.
Proof.
  intros fr. destruct (pop_min fr) as [[e fr']|] eqn:E.
  - by apply pop_min_pops.
  - by apply pop_min_none.
Qed.

Lemma turn_step popf pop goal c :
  follows popf pop -> step pop goal c (turn popf goal c).
Proof.
  intros Hf. destruct c as [st|out]; cbn; [|constructor].
  specialize (Hf (frontier st)).
  destruct (popf (frontier st)) as [[e fr']|].
  - destruct (decide (tile e = goal)).
    + by apply (step_goal pop goal st e fr').
    + by apply (step_expand pop goal st e fr').
  - by apply step_empty.
Qed.

Lemma run_steps popf pop goal n : forall c,
  follows popf pop -> steps pop goal n c (run popf goal n c).
Proof.
  induction n as [|n IH]; intros c Hf; cbn; [constructor|].
  apply (steps_S pop goal n c (turn popf goal c)).
  - by apply turn_step.
  - by apply IH.
Qed.

Lemma pops_nonempty e fr' : ~ pops [] e fr'.
Proof. intros (l1 & l2 & H & _). by destruct l1. Qed.

(** With the tie-break one turn of the loop has one result. *)
Lemma step_functional goal c c1 c2 :
  step pops goal c c1 -> step pops goal c c2 -> c1 = c2.
Proof.
  intros H1 H2.
  inversion H1 as [out|st He|st e fr' Hp Hg|st e fr' Hp Hg];
    inversion H2 as [out'|st' He'|st' e' fr'' Hp' Hg'|st' e' fr'' Hp' Hg'];
    subst; try congruence;
    repeat match goal with
    | H : Running _ = Running _ |- _ => injection H as ->
    | H : frontier ?s = [], P : pops (frontier ?s) _ _ |- _ =>
        rewrite H in P; by apply pops_nonempty in P
    | P : pops ?f _ _, P' : pops ?f _ _ |- _ =>
        destruct (pops_functional _ _ _ _ _ P P') as [<- <-]; clear P'
    end; congruence.
Qed.

Lemma steps_functional goal n : forall c c1 c2,
  steps pops goal n c c1 -> steps pops goal n c c2 -> c1 = c2.
Proof.
  induction n as [|n IH]; intros c c1 c2 H1 H2.
  - inversion H1; inversion H2; congruence.
  - inversion H1 as [|? ? c' ? Hs Hr]; inversion H2 as [|? ? d' ? Hs' Hr']; subst.
    rewrite (step_functional goal c c' d' Hs Hs') in Hr. by eapply IH.
Qed.

Lemma steps_done pop goal n out : steps pop goal n (Done out) (Done out).
Proof.
  induction n as [|n IH]; [constructor|].
  eapply steps_S; [constructor|exact IH].
Qed.

Lemma steps_done_inv goal n out c :
  steps pops goal n (Done out) c -> c = Done out.
Proof.
  intros H. eapply steps_functional; [exact H|apply steps_done].
Qed.



End Search.

(** *** A grid *)

(** Modelled from the spec: the grid graph of section 4.1
    ([WeightedGraph] of [pathfinding.py], which is not among the sources):
    bounds and blocked tiles. For the neighbour policy, which the
    specification leaves open, the examples take the four orthogonal
    moves at cost 1, in the order east, west, south, north, and the
    Manhattan distance as heuristic. *)
Record GridGraph := mkGrid { width : Z; height : Z; walls : list Tile }.

Definition in_bounds (g : GridGraph) (t : Tile) : bool :=
  (0 <=? fst t)%Z && (fst t <? width g)%Z
  && (0 <=? snd t)%Z && (snd t <? height g)%Z.

Definition passable (g : GridGraph) (t : Tile) : bool :=
  negb (bool_decide (t ∈ walls g)).

Definition grid_valid (g : GridGraph) (t : Tile) : bool :=
  in_bounds g t && passable g t.

Definition grid_neighbors (g : GridGraph) (t : Tile) : list (Tile * Q) :=
  let (x, y) := t in
  (fun n => (n, 1)) <$>
    List.filter (grid_valid g)
      [((x + 1)%Z, y); ((x - 1)%Z, y); (x, (y + 1)%Z); (x, (y - 1)%Z)].

Definition manhattan (a b : Tile) : Q :=
  inject_Z (Z.abs (fst a - fst b) + Z.abs (snd a - snd b)).

(** [self.game_graph.walls] as [Game.new] fills it from the positions of
    the walls. *)
Definition graph_walls (TILESIZE : Q) (wall_positions : list vec) : list Tile :=
  (fun w => (Qfloor (vx w / TILESIZE), Qfloor (vy w / TILESIZE)))
    <$> wall_positions.

(** A room of two by two tiles of 64 pixels without walls; the predator
    stands in the tile (0, 0) and the prey in the tile (1, 1). *)
Definition room : GridGraph := mkGrid 2 2 (graph_walls 64 []).

Definition room_search (popf : list Entry -> option (Entry * list Entry))
  (fuel : nat) : Config :=
  run (grid_neighbors room) manhattan 64 popf (1, 1)%Z fuel
    (start_config (grid_valid room) (0, 0)%Z (1, 1)%Z).

(** With the tie-break the search goes east first: (0,0), (1,0), (1,1). *)
Definition east_first : list vec :=
  Eval vm_compute in
    match room_search pop_min 4 with
    | Done (Found path) => path
    | _ => []
    end.

(** A frontier that hands out the last of the entries of least priority
    goes south first: (0,0), (0,1), (1,1). *)
Definition south_first : list vec :=
  Eval vm_compute in
    match room_search pop_min_last 4 with
    | Done (Found path) => path
    | _ => []
    end.

Example room_search_returns :
  find_path (grid_valid room) (grid_neighbors room) manhattan 64 4
    (10, 20) (100, 120) = Done (Found east_first)
  /\ length east_first = 3%nat.
Proof. split; vm_compute; reflexivity. Qed.

(** Without the tie-break the same search has two results: the policy is
    what makes the search deterministic. *)
Lemma without_tie_break_two_paths :
  returns (grid_valid room) (grid_neighbors room) manhattan 64 pops_any
    (0, 0)%Z (1, 1)%Z (Found east_first)
  /\ returns (grid_valid room) (grid_neighbors room) manhattan 64 pops_any
    (0, 0)%Z (1, 1)%Z (Found south_first)
  /\ east_first <> south_first.
Proof.
  split; [|split].
  - exists 4%nat.
    replace (Done (Found east_first)) with (room_search pop_min 4)
      by (vm_compute; reflexivity).
    apply run_steps. intros fr. pose proof (pop_min_follows fr) as H.
    destruct (pop_min fr) as [[e fr']|]; [by apply pops_pops_any|done].
  - exists 4%nat.
    replace (Done (Found south_first)) with (room_search pop_min_last 4)
      by (vm_compute; reflexivity).
    apply run_steps. intros fr.
    destruct (pop_min_last fr) as [[e fr']|] eqn:E.
    + by apply pop_min_last_pops_any.
    + by apply pop_min_last_none.
  - vm_compute. discriminate.
Qed.

End Pathfinding.

(* ===================================================================== *)
(** ** More on the path-finding queue                                     *)
(* ===================================================================== *)

Module QueueFacts.

Import Scheduler.
Unset Implicit Arguments.

(** The index points into the group, which is not empty. *)
Definition in_step (g : Game) : Prop :=
  (mob_idx g <= length (mobs g))%nat /\ (0 < length (mobs g))%nat.

(** The identities of the mobs, in the order of the group. *)
Definition ids (g : Game) : list nat := mob_id <$> mobs g.

Lemma update_in_step now g :
  in_step g ->
  in_step (update_pathfinding_queue now g)
  /\ ids (update_pathfinding_queue now g) = ids g
  /\ (update_pathfinding_queue now g = g
      \/ eligible_count (update_pathfinding_queue now g) = 1%nat).
Proof.
  intros [Hle Hpos]. destruct (window_elapsed now g) eqn:Hw.
  - pose proof (synced_window_one_eligible now g Hw Hle Hpos) as H1.
    pose proof (wrap_idx_lt g Hle Hpos) as Hlt.
    rewrite (update_fired now g Hw) in *. unfold in_step, ids; cbn.
    rewrite flag_loop_length, flag_loop_ids. repeat split; auto with lia.
  - unfold update_pathfinding_queue. rewrite Hw. unfold in_step. auto.
Qed.

Lemma after_in_step ticks : forall g,
  in_step g ->
  in_step (after g ticks) /\ ids (after g ticks) = ids g
  /\ (after g ticks = g \/ eligible_count (after g ticks) = 1%nat).
Proof.
  induction ticks as [|now rest IH]; intros g Hg; [by auto|].
  destruct (update_in_step now g Hg) as (H1 & H2 & H3).
  destruct (IH _ H1) as (I1 & I2 & I3). unfold after in *. cbn [fold_left].
  split; [done|]. split; [congruence|].
  destruct I3 as [I3|I3]; [|by right].
  rewrite I3. destruct H3 as [H3|H3]; [left; congruence|by right].
Qed.

(** X1: in a level that starts with at least one mob and in which no mob
    dies, whatever the clock values of the frames, the index stays within
    the group, the group keeps its mobs in their order, and as soon as one
    window has fired exactly one mob is eligible. *)
Theorem no_death_keeps_the_queue_in_step ms ticks :
  ms <> [] ->
  (mob_idx (after (new ms) ticks) <= length ms)%nat
  /\ mob_id <$> mobs (after (new ms) ticks) = mob_id <$> ms
  /\ (after (new ms) ticks = new ms
      \/ eligible_count (after (new ms) ticks) = 1%nat).
Proof.
  intros Hne.
  assert (Hs : in_step (new ms)).
  { unfold in_step; cbn. destruct ms; [done|cbn; lia]. }
  destruct (after_in_step ticks (new ms) Hs) as ((H1 & _) & H2 & H3).
  split; [|by split].
  assert (Hl : length (mobs (after (new ms) ticks)) = length ms).
  { change (length (mobs (after (new ms) ticks)))
      with (length (mobs (after (new ms) ticks))).
    rewrite <- (length_fmap mob_id (mobs (after (new ms) ticks))).
    fold (ids (after (new ms) ticks)). rewrite H2. unfold ids; cbn.
    by rewrite length_fmap. }
  lia.
Qed.

Lemma no_death_witness :
  three_mobs <> []
  /\ (mob_idx (after (new three_mobs) four_windows) <= length three_mobs)%nat
  /\ mob_id <$> mobs (after (new three_mobs) four_windows) = mob_id <$> three_mobs
  /\ (after (new three_mobs) four_windows = new three_mobs
      \/ eligible_count (after (new three_mobs) four_windows) = 1%nat).
Proof.
  assert (H : three_mobs <> []) by discriminate.
  split; [exact H|].
  exact (no_death_keeps_the_queue_in_step three_mobs four_windows H).
Defined.

(** X2: round robin, counted exactly. While the index is within the group,
    over [N] windows the mob at position [j] of [k] is made eligible
    [N / k] times, and once more if its turn comes within the first
    [N mod k] windows. *)
Theorem round_robin_exact_share g ticks j :
  windows (last_queue_update g) ticks ->
  (mob_idx g <= length (mobs g))%nat ->
  (j < length (mobs g))%nat ->
  dispatches j g ticks
  = (length ticks / length (mobs g)
     + if Nat.ltb (turns_away (length (mobs g)) (wrap_idx g) j)
                  (length ticks mod length (mobs g))
       then 1 else 0)%nat.
Proof.
  intros Hwin Hsync Hj. rewrite dispatches_hits by done.
  set (k := length (mobs g)) in *. set (n := length ticks).
  assert (Hk : (k <> 0)%nat) by lia.
  pose proof (wrap_idx_lt g Hsync ltac:(fold k; lia)) as Hp. fold k in Hp.
  apply (@hits_closed k j n (wrap_idx g) (n / k)%nat (n mod k)%nat Hj Hp).
  - by apply Nat.mod_upper_bound.
  - rewrite (Nat.div_mod_eq n k) at 1. lia.
Qed.

Lemma round_robin_witness :
  windows (last_queue_update (new three_mobs)) four_windows
  /\ (mob_idx (new three_mobs) <= length (mobs (new three_mobs)))%nat
  /\ (0 < length (mobs (new three_mobs)))%nat
  /\ dispatches 0 (new three_mobs) four_windows = 2%nat.
Proof.
  assert (H1 : windows (last_queue_update (new three_mobs)) four_windows)
    by (vm_compute; repeat split).
  assert (H2 : (mob_idx (new three_mobs) <= length (mobs (new three_mobs)))%nat)
    by (vm_compute; lia).
  assert (H3 : (0 < length (mobs (new three_mobs)))%nat) by (vm_compute; lia).
  split; [exact H1|]. split; [exact H2|]. split; [exact H3|].
  exact (round_robin_exact_share (new three_mobs) four_windows 0%nat H1 H2 H3).
Defined.


Lemma kill_length i g :
  (i < length (mobs g))%nat ->
  length (mobs (kill i g)) = (length (mobs g) - 1)%nat.
Proof.
  intros Hi. cbn. destruct (lookup_lt_is_Some_2 (mobs g) i Hi) as [m Hm].
  assert (Hs : is_Some (mobs g !! i)) by by exists m.
  pose proof (length_delete (mobs g) i Hs). lia.
Qed.

(** X3: what a death does to the rotation. If a mob dies while the index
    is inside the group ([mob_idx < len(mobs)]), the index is still within
    the group afterwards and the next window makes exactly one survivor
    eligible. If it dies when [mob_idx == len(mobs)], that is right after
    the last mob of the group had its turn, the index is past the end of
    the group afterwards and the next window makes no mob eligible. *)
Theorem death_and_the_next_window i now g :
  (i < length (mobs g))%nat ->
  (mob_idx g <= length (mobs g))%nat ->
  (1 < length (mobs g))%nat ->
  window_elapsed now (kill i g) = true ->
  ((mob_idx g < length (mobs g))%nat ->
     (mob_idx (kill i g) <= length (mobs (kill i g)))%nat
     /\ eligible_count (update_pathfinding_queue now (kill i g)) = 1%nat)
  /\ (mob_idx g = length (mobs g) ->
     (length (mobs (kill i g)) < mob_idx (kill i g))%nat
     /\ eligible_count (update_pathfinding_queue now (kill i g)) = 0%nat).
Proof.
  intros Hi Hle Hlen Hw. pose proof (kill_length i g Hi) as Hk.
  split; intros Hidx.
  - assert (H1 : (mob_idx (kill i g) <= length (mobs (kill i g)))%nat)
      by (rewrite Hk; cbn; lia).
    split; [done|]. apply synced_window_one_eligible; [done|done|lia].
  - assert (H1 : (length (mobs (kill i g)) < mob_idx (kill i g))%nat)
      by (rewrite Hk; cbn; lia).
    split; [done|]. by apply stale_window.
Qed.

Definition three_turns : Game := after (new three_mobs) [5001; 10002; 15003].

Lemma death_and_the_next_window_witness :
  (0 < length (mobs three_turns))%nat
  /\ (mob_idx three_turns <= length (mobs three_turns))%nat
  /\ (1 < length (mobs three_turns))%nat
  /\ window_elapsed 20004 (kill 0 three_turns) = true
  /\ (mob_idx three_turns = length (mobs three_turns) ->
      (length (mobs (kill 0 three_turns)) < mob_idx (kill 0 three_turns))%nat
      /\ eligible_count (update_pathfinding_queue 20004 (kill 0 three_turns))
         = 0%nat).
Proof.
  assert (H1 : (0 < length (mobs three_turns))%nat) by (vm_compute; lia).
  assert (H2 : (mob_idx three_turns <= length (mobs three_turns))%nat)
    by (vm_compute; lia).
  assert (H3 : (1 < length (mobs three_turns))%nat) by (vm_compute; lia).
  assert (H4 : window_elapsed 20004 (kill 0 three_turns) = true)
    by reflexivity.
  split; [exact H1|]. split; [exact H2|]. split; [exact H3|].
  split; [exact H4|].
  exact (proj2 (death_and_the_next_window 0 20004 three_turns H1 H2 H3 H4)).
Defined.



End QueueFacts.

(* ===================================================================== *)
(** ** More on the player                                                 *)
(* ===================================================================== *)

Module PlayerFacts.

Import Floats PlayerStats.
Open Scope Q_scope.
Unset Implicit Arguments.

(** *** Stamina over many calls *)

(** A call of one of the two stamina methods. *)
Inductive StaminaCall :=
| Decrease (now : Z) (rate : Q)
| Increase (now : Z) (rate : Q).

Definition rate_of (c : StaminaCall) : Q :=
  match c with Decrease _ r => r | Increase _ r => r end.

Definition stamina_call (p : Player) (c : StaminaCall) : Player :=
  match c with
  | Decrease now r => decrease_stamina now r p
  | Increase now r => increase_stamina now r p
  end.

Lemma increase_stamina_cases now rate p :
  (100 <= stamina p -> stamina (increase_stamina now rate p) = 100)
  /\ (stamina p < 100 ->
      stamina (increase_stamina now rate p) = stamina p
      \/ stamina (increase_stamina now rate p) = stamina p + rate).
Proof.
  unfold increase_stamina. destruct (Qltb (stamina p) 100) eqn:E.
  - apply Qltb_lt in E. split; [intros H; lra|]. intros _.
    destruct (_ >? _)%Z; cbn; auto.
  - apply Qltb_ge in E. split; [done|]. intros H; lra.
Qed.

Lemma decrease_stamina_cases now rate p :
  stamina (decrease_stamina now rate p) = stamina p
  \/ stamina (decrease_stamina now rate p) = 0
     /\ stamina p - rate < 0
  \/ stamina (decrease_stamina now rate p) = stamina p - rate
     /\ 0 <= stamina p - rate.
Proof.
  unfold decrease_stamina. destruct (_ >? _)%Z; [|by left]. cbn.
  destruct (Qltb (stamina p - rate) 0) eqn:E; cbn.
  - apply Qltb_lt in E. right; left. done.
  - apply Qltb_ge in E. right; right. done.
Qed.

(** X5: the range of the stamina. Through any sequence of calls of
    [decrease_stamina] and [increase_stamina] with rates between 0 and
    [R], a stamina that starts between 0 and [100 + R] stays there. The
    upper end is not 100: [increase_stamina] adds the rate whenever the
    stamina is below 100 and sets it back to 100 only in a later call. *)
Theorem stamina_stays_in_range R calls : forall p,
  (forall c, In c calls -> 0 <= rate_of c /\ rate_of c <= R) ->
  0 <= stamina p -> stamina p <= 100 + R ->
  0 <= stamina (fold_left stamina_call calls p)
  /\ stamina (fold_left stamina_call calls p) <= 100 + R.
Proof.
  induction calls as [|c calls IH]; intros p Hr H0 H1; [done|].
  cbn [fold_left]. apply IH.
  - intros c' Hc'. apply Hr. by right.
  - destruct (Hr c (or_introl eq_refl)) as [Hc0 Hc1].
    destruct c as [now r|now r]; cbn in *.
    + destruct (decrease_stamina_cases now r p) as [->|[[-> _]|[-> ?]]]; lra.
    + destruct (increase_stamina_cases now r p) as [Ha Hb].
      destruct (Qlt_le_dec (stamina p) 100) as [Hlt|Hge].
      * destruct (Hb Hlt) as [-> | ->]; lra.
      * rewrite (Ha Hge). lra.
  - destruct (Hr c (or_introl eq_refl)) as [Hc0 Hc1].
    destruct c as [now r|now r]; cbn in *.
    + destruct (decrease_stamina_cases now r p) as [->|[[-> _]|[-> ?]]]; lra.
    + destruct (increase_stamina_cases now r p) as [Ha Hb].
      destruct (Qlt_le_dec (stamina p) 100) as [Hlt|Hge].
      * destruct (Hb Hlt) as [-> | ->]; lra.
      * rewrite (Ha Hge). lra.
Qed.

(** A player at 99.5 stamina who rests for two calls a second apart: the
    first call takes the stamina to 100.5, the second back to 100. *)
Definition nearly_rested : Player := set_stamina (199 # 2) example_init.
Definition two_rests : list StaminaCall := [Increase 1000 1; Increase 2000 1].

Example stamina_passes_100 :
  stamina (stamina_call nearly_rested (Increase 1000 1)) == 201 # 2
  /\ stamina (fold_left stamina_call two_rests nearly_rested) == 100.
Proof. split; reflexivity. Qed.

Lemma stamina_stays_in_range_witness :
  (forall c, In c two_rests -> 0 <= rate_of c /\ rate_of c <= 1)
  /\ 0 <= stamina nearly_rested
  /\ stamina nearly_rested <= 100 + 1
  /\ 0 <= stamina (fold_left stamina_call two_rests nearly_rested)
  /\ stamina (fold_left stamina_call two_rests nearly_rested) <= 100 + 1.
Proof.
  assert (H1 : forall c, In c two_rests -> 0 <= rate_of c /\ rate_of c <= 1).
  { intros c [<-|[<-|[]]]; cbn; split; discriminate. }
  assert (H2 : 0 <= stamina nearly_rested) by (cbn; discriminate).
  assert (H3 : stamina nearly_rested <= 100 + 1) by (cbn; discriminate).
  split; [exact H1|]. split; [exact H2|]. split; [exact H3|].
  exact (stamina_stays_in_range 1 two_rests nearly_rested H1 H2 H3).
Defined.

(** *** The arsenal *)

Lemma arsenal_get_set a w f v a' w' f' :
  arsenal_set a w f v = Ok a' ->
  arsenal_get a' w' f'
  = if decide (w' = w /\ f' = f) then Ok v else arsenal_get a w' f'.
Proof.
  unfold arsenal_set, arsenal_get, getitem.
  destruct (a !! w) as [s|] eqn:Es; cbn [bind]; [|done]. intros [= <-].
  destruct (decide (w' = w)) as [->|Hw].
  - rewrite lookup_insert_eq, Es. cbn [bind].
    destruct (decide (f' = f)) as [->|Hf].
    + rewrite lookup_insert_eq. by rewrite decide_True.
    + rewrite lookup_insert_ne by done. rewrite decide_False by tauto. done.
  - rewrite lookup_insert_ne by done. rewrite decide_False by tauto. done.
Qed.

Lemma arsenal_set_missing a w f v :
  a !! w = None -> arsenal_set a w f v = Raise (KeyError w).
Proof. intros H. unfold arsenal_set, getitem. by rewrite H. Qed.

Lemma arsenal_set_present a w f v s :
  a !! w = Some s -> arsenal_set a w f v = Ok (<[w := <[f := v]> s]> a).
Proof. intros H. unfold arsenal_set, getitem. by rewrite H. Qed.

(** Every number in the arsenal is at least 0. *)
Definition stocked (a : gmap string (gmap string Z)) : Prop :=
  forall w f x, arsenal_get a w f = Ok x -> (0 <= x)%Z.

Lemma stocked_set a w f v a' :
  stocked a -> (0 <= v)%Z -> arsenal_set a w f v = Ok a' -> stocked a'.
Proof.
  intros Ha Hv Hs w' f' x. rewrite (arsenal_get_set _ _ _ _ _ w' f' Hs).
  case_decide; [by intros [= <-]|apply Ha].
Qed.

Lemma stocked_initial : stocked initial_arsenal.
Proof.
  intros w f x. unfold arsenal_get, getitem, initial_arsenal, firearm_slot.
  repeat match goal with
  | |- context [<[?k := _]> _ !! ?w] =>
      destruct (decide (k = w)) as [<-|?];
      [rewrite lookup_insert_eq|rewrite lookup_insert_ne by done]
  | |- context [∅ !! _] => rewrite lookup_empty
  | |- context [bind (Ok _) _] => cbn [bind]
  end; cbn [bind]; try done; intros [= <-]; lia.
Qed.

Section Settings.

Variable PLAYER_HEALTH : Z.
Variable PLAYER_SPEED : Q.
Variable weapon_rate : string -> Z.
Variable weapon_kickback : string -> Q.
Variable weapon_weight : string -> Q.
Variable weapon_wobble : string -> string -> Q.
Variable weapon_clip_size : string -> Z.
Variable rotate : vec -> Q -> vec.

(** *** Pickups *)


(** X7: a weapon picked up for the first time and then once more. The
    first pickup marks the weapon as owned, fills the clip and gives one
    reload less than the boost (one goes into the clip); the second adds
    the whole boost. Entries of other weapons are as before. *)
Theorem weapon_pickup_twice ty boost p s :
  arsenal p !! ty = Some s ->
  s !! "hasWeapon"%string = Some 0%Z ->
  exists p1 p2,
    pickup_item PLAYER_HEALTH weapon_clip_size (WeaponPickup ty boost) p = Ok p1
    /\ pickup_item PLAYER_HEALTH weapon_clip_size (WeaponPickup ty boost) p1 = Ok p2
    /\ arsenal_get (arsenal p1) ty "hasWeapon" = Ok 1%Z
    /\ arsenal_get (arsenal p1) ty "reloads" = Ok (boost - 1)%Z
    /\ arsenal_get (arsenal p1) ty "clip" = Ok (weapon_clip_size ty)
    /\ arsenal_get (arsenal p2) ty "hasWeapon" = Ok 1%Z
    /\ arsenal_get (arsenal p2) ty "reloads" = Ok (boost - 1 + boost)%Z
    /\ arsenal_get (arsenal p2) ty "clip" = Ok (weapon_clip_size ty)
    /\ (forall w, w <> ty -> arsenal p2 !! w = arsenal p !! w)
    /\ health p2 = health p /\ weapon p2 = weapon p.
Proof.
  intros Hs Hh.
  set (s1 := <["hasWeapon"%string := 1%Z]> s).
  set (s2 := <["reloads"%string := (boost - 1)%Z]> s1).
  set (s3 := <["clip"%string := weapon_clip_size ty]> s2).
  set (a1 := <[ty := s1]> (arsenal p)).
  set (a2 := <[ty := s2]> a1).
  set (a3 := <[ty := s3]> a2).
  set (s4 := <["reloads"%string := (boost - 1 + boost)%Z]> s3).
  assert (E1 : pickup_item PLAYER_HEALTH weapon_clip_size
                 (WeaponPickup ty boost) p = Ok (set_arsenal a3 p)).
  { unfold pickup_item, arsenal_get, getitem. rewrite Hs; cbn [bind].
    rewrite Hh; cbn [bind truthy Z.eqb negb].
    rewrite (arsenal_set_present _ ty _ _ s Hs); cbn [bind]. fold s1 a1.
    rewrite (arsenal_set_present a1 ty _ _ s1) by apply lookup_insert_eq.
    cbn [bind]. fold s2 a2.
    rewrite (arsenal_set_present a2 ty _ _ s2) by apply lookup_insert_eq.
    done. }
  assert (H3 : a3 !! ty = Some s3) by apply lookup_insert_eq.
  assert (E2 : pickup_item PLAYER_HEALTH weapon_clip_size
                 (WeaponPickup ty boost) (set_arsenal a3 p)
               = Ok (set_arsenal (<[ty := s4]> a3) (set_arsenal a3 p))).
  { unfold pickup_item, arsenal_get, getitem. cbn [arsenal set_arsenal].
    rewrite H3; cbn [bind]. subst s3 s2 s1.
    rewrite lookup_insert_ne, lookup_insert_ne, lookup_insert_eq by done.
    cbn [bind truthy Z.eqb negb].
    rewrite lookup_insert_ne, lookup_insert_eq by done. cbn [bind].
    rewrite (arsenal_set_present a3 ty _ _ _ H3). done. }
  exists (set_arsenal a3 p), (set_arsenal (<[ty := s4]> a3) (set_arsenal a3 p)).
  split; [exact E1|]. split; [exact E2|]. cbn [arsenal set_arsenal health weapon].
  unfold arsenal_get, getitem. rewrite H3, lookup_insert_eq. cbn [bind].
  subst s4 s3 s2 s1.
  repeat split;
    repeat (first [rewrite lookup_insert_eq
                  |rewrite lookup_insert_ne by done]); try done.
  intros w Hw. subst a3 a2 a1.
  by rewrite !lookup_insert_ne.
Qed.


(** *** What the handlers leave alone *)

Ltac invert_ok H :=
  repeat match type of H with
  | bind ?c _ = Ok _ =>
      let E := fresh "E" in
      destruct c as [?|?] eqn:E; cbn [bind] in H; [|discriminate H]
  | (if ?c then _ else _) = Ok _ => destruct c eqn:?
  | (let _ := _ in _) = Ok _ => cbv zeta in H
  | Raise _ = Ok _ => discriminate H
  end.

(** The arsenal, the weapon in hand, the time of the last shot and the
    flag of the canned animation. *)
Definition gear (p : Player)
  : gmap string (gmap string Z) * string * Z * bool :=
  (arsenal p, weapon p, last_shot p, play_static_animation p).

Lemma decrease_stamina_gear now rate p :
  gear (decrease_stamina now rate p) = gear p.
Proof.
  unfold decrease_stamina. destruct (_ >? _)%Z; [|done]. cbn.
  destruct (Qltb _ _); done.
Qed.

Lemma increase_stamina_gear now rate p :
  gear (increase_stamina now rate p) = gear p.
Proof.
  unfold increase_stamina. destruct (Qltb _ _); [|done].
  destruct (_ >? _)%Z; done.
Qed.

Lemma sprint_block_gear inp f p :
  gear (sprint_block weapon_weight weapon_wobble inp f p) = gear p.
Proof. unfold sprint_block. cbv zeta. by rewrite decrease_stamina_gear. Qed.

Lemma walk_block_gear inp f p q :
  walk_block weapon_weight weapon_wobble inp f p = Ok q -> gear q = gear p.
Proof.
  unfold walk_block. cbv zeta. intros H. invert_ok H. injection H as <-.
  by rewrite increase_stamina_gear.
Qed.

Lemma handle_player_movement_gear inp p q :
  handle_player_movement PLAYER_SPEED weapon_weight weapon_wobble inp p = Ok q ->
  gear q = gear p.
Proof.
  unfold handle_player_movement. cbv zeta.
  destruct (K_SPACE (keys inp) && Qltb 0 (stamina p)).
  - intros [= <-].
    destruct (K_a (keys inp)), (K_d (keys inp)), (K_w (keys inp)),
      (K_s (keys inp)); by rewrite ?sprint_block_gear.
  - intros H.
    repeat match type of H with
    | bind (if ?c then _ else _) _ = Ok _ => destruct c
    | bind (walk_block ?w ?b ?i ?f ?r) _ = Ok _ =>
        let E := fresh "E" in
        destruct (walk_block w b i f r) as [?|?] eqn:E; [|discriminate H];
        apply walk_block_gear in E
    | bind (Ok _) _ = Ok _ => cbn [bind] in H
    end;
    injection H as <-; congruence.
Qed.

Lemma update_rotation_gear inp p : gear (update_rotation inp p) = gear p.
Proof.
  unfold update_rotation, update_direction. cbv zeta.
  repeat match goal with
  | |- context [if ?c then _ else _] => destruct c
  end; done.
Qed.

Lemma rest_when_idle_gear inp p q :
  rest_when_idle weapon_weight weapon_wobble inp p = Ok q -> gear q = gear p.
Proof.
  unfold rest_when_idle. intros H. invert_ok H; injection H as <-; [|done].
  cbv zeta. by rewrite increase_stamina_gear.
Qed.

(** The weapon after [handle_weapon_selection] is the one before, or the
    knife, or one that the arsenal marks as owned. *)
Definition owned (a : gmap string (gmap string Z)) (w : string) : Prop :=
  w = "knife"%string
  \/ exists h, arsenal_get a w "hasWeapon" = Ok h /\ h <> 0%Z.

Lemma truthy_nonzero h : truthy h = true -> h <> 0%Z.
Proof. unfold truthy. destruct (Z.eqb_spec h 0); [done|auto]. Qed.

Lemma wants_owned key w p :
  wants key w p = Ok true -> owned (arsenal p) w.
Proof.
  unfold wants. destruct key; [|done]. intros H.
  destruct (arsenal_get (arsenal p) w "hasWeapon") as [h|] eqn:E;
    cbn [bind] in H; [|done].
  injection H as H. apply andb_true_iff in H. destruct H as [H _].
  right. exists h. split; [done|by apply truthy_nonzero].
Qed.

Lemma handle_weapon_selection_owned inp p q :
  handle_weapon_selection inp p = Ok q ->
  arsenal q = arsenal p /\ last_shot q = last_shot p
  /\ play_static_animation q = play_static_animation p
  /\ (weapon q = weapon p \/ owned (arsenal p) (weapon q)).
Proof.
  unfold handle_weapon_selection. cbv zeta. intros H.
  destruct (wants (K_1 (keys inp)) "rifle" p) as [[|]|] eqn:E1;
    cbn [bind] in H; [| |done].
  { injection H as <-. repeat split; try done. right. by eapply wants_owned. }
  destruct (wants (K_2 (keys inp)) "shotgun" p) as [[|]|] eqn:E2;
    cbn [bind] in H; [| |done].
  { injection H as <-. repeat split; try done. right. by eapply wants_owned. }
  destruct (wants (K_3 (keys inp)) "handgun" p) as [[|]|] eqn:E3;
    cbn [bind] in H; [| |done].
  { injection H as <-. repeat split; try done. right. by eapply wants_owned. }
  destruct (K_4 (keys inp) && negb (String.eqb (weapon p) "knife"));
    injection H as <-; repeat split; try done; [right; by left|by left].
Qed.

(** *** Shots and reloads *)

Definition clip_sizes : Prop := forall w, (0 <= weapon_clip_size w)%Z.

Lemma reload_effect p q :
  reload weapon_clip_size p = Ok q ->
  weapon q = weapon p /\ last_shot q = last_shot p
  /\ exists r, arsenal_get (arsenal p) (weapon p) "reloads" = Ok r
      /\ arsenal_get (arsenal q) (weapon p) "reloads" = Ok (r - 1)%Z
      /\ arsenal_get (arsenal q) (weapon p) "clip" = Ok (weapon_clip_size (weapon p))
      /\ (clip_sizes -> stocked (arsenal p) -> (0 < r)%Z -> stocked (arsenal q)).
Proof.
  unfold reload. intros H. invert_ok H. cbv zeta in H. injection H as <-.
  cbn [weapon last_shot arsenal set_arsenal set_action set_canned_action
         set_current_frame set_play_static_animation].
  split; [done|]. split; [done|]. eexists. split; [done|].
  rewrite !(arsenal_get_set _ _ _ _ _ _ _ E1), !(arsenal_get_set _ _ _ _ _ _ _ E0).
  split; [by rewrite decide_False, decide_True by (auto || intros [_ [=]])|].
  split; [by rewrite decide_True|].
  intros Hcs Hs Hr. eapply stocked_set; [|apply Hcs|exact E1].
  eapply stocked_set; [exact Hs| |exact E0]. lia.
Qed.

Lemma shoot_effect inp p q :
  shoot weapon_rate weapon_kickback rotate inp p = Ok q ->
  weapon q = weapon p
  /\ (q = p
      \/ (now inp - last_shot p > weapon_rate (weapon p))%Z
         /\ last_shot q = now inp
         /\ exists c, arsenal_get (arsenal p) (weapon p) "clip" = Ok c
             /\ arsenal_get (arsenal q) (weapon p) "clip" = Ok (c - 1)%Z
             /\ (stocked (arsenal p) -> (0 < c)%Z -> stocked (arsenal q))).
Proof.
  unfold shoot. intros H.
  destruct (Z.gtb_spec (now inp - last_shot p) (weapon_rate (weapon p)));
    [|injection H as <-; auto].
  cbv zeta in H. cbn [arsenal weapon set_vel set_last_shot] in H.
  invert_ok H. injection H as <-.
  cbn [weapon last_shot arsenal set_arsenal set_vel set_last_shot].
  split; [done|]. right. split; [lia|]. split; [done|].
  eexists. split; [done|].
  rewrite (arsenal_get_set _ _ _ _ _ _ _ E0). split; [by rewrite decide_True|].
  intros Hs Hc. eapply stocked_set; [exact Hs| |exact E0]. lia.
Qed.

(** What a frame can do with the gun. *)
Lemma handle_combat_controls_effect inp p q :
  handle_combat_controls weapon_rate weapon_kickback weapon_weight
    weapon_clip_size rotate inp p = Ok q ->
  weapon q = weapon p
  /\ (clip_sizes -> stocked (arsenal p) -> stocked (arsenal q))
  /\ (last_shot q = last_shot p
      \/ last_shot q = now inp /\ lc inp = true
         /\ weapon p <> "knife"%string
         /\ (now inp - last_shot p > weapon_rate (weapon p))%Z
         /\ exists c, arsenal_get (arsenal p) (weapon p) "clip" = Ok c
             /\ c <> 0%Z).
Proof.
  unfold handle_combat_controls. intros H.
  destruct (if lc inp && negb (String.eqb (weapon p) "knife") then _ else _)
    as [p1|] eqn:E1; cbn [bind] in H; [|done].
  destruct (if K_r (keys inp) && _ && _ then _ else _)
    as [p2|] eqn:E2; cbn [bind] in H; [|done].
  assert (H1 : weapon p1 = weapon p
               /\ (clip_sizes -> stocked (arsenal p) -> stocked (arsenal p1))
               /\ (last_shot p1 = last_shot p
                   \/ last_shot p1 = now inp /\ lc inp = true
                      /\ weapon p <> "knife"%string
                      /\ (now inp - last_shot p > weapon_rate (weapon p))%Z
                      /\ exists c, arsenal_get (arsenal p) (weapon p) "clip" = Ok c
                          /\ c <> 0%Z)).
  { clear E2 H.
    destruct (lc inp && negb (String.eqb (weapon p) "knife")) eqn:Hlc;
      [|injection E1 as <-; auto].
    apply andb_true_iff in Hlc. destruct Hlc as [Hl Hk].
    apply negb_true_iff, String.eqb_neq in Hk.
    destruct (arsenal_get (arsenal p) (weapon p) "clip") as [c|] eqn:Ec;
      cbn [bind] in E1; [|done].
    destruct (Z.eqb_spec c 0) as [->|Hc]; cbn [negb] in E1.
    - invert_ok E1; try (injection E1 as <-; auto).
      apply reload_effect in E1.
      destruct E1 as (Hw & Hl' & r & Hr & _ & _ & Hs).
      rewrite E in Hr. injection Hr as <-.
      split; [done|]. split; [|by left]. intros Hcs Hst.
      apply Hs; [done|done|]. by apply Z.gtb_lt.
    - apply shoot_effect in E1. cbn [weapon arsenal last_shot set_action] in E1.
      destruct E1 as (Hw & [->|(Hr & Hl' & c' & Hc1 & _ & Hs)]).
      + cbn. auto.
      + rewrite Ec in Hc1. injection Hc1 as <-.
        split; [done|]. split.
        * intros _ Hst. apply Hs; [done|]. specialize (Hst _ _ _ Ec). lia.
        * right. repeat split; try done. by exists c. }
  assert (H2 : weapon p2 = weapon p1 /\ last_shot p2 = last_shot p1
               /\ (clip_sizes -> stocked (arsenal p1) -> stocked (arsenal p2))).
  { clear E1 H H1. invert_ok E2; try (injection E2 as <-; auto).
    apply reload_effect in E2.
    destruct E2 as (Hw & Hl' & r & Hr & _ & _ & Hs).
    rewrite E in Hr. injection Hr as <-.
    split; [done|]. split; [done|]. intros Hcs Hst.
    apply Hs; [done|done|]. by apply Z.gtb_lt. }
  assert (H3 : arsenal q = arsenal p2 /\ weapon q = weapon p2
               /\ last_shot q = last_shot p2).
  { clear E1 E2 H1 H2. invert_ok H; injection H as <-; [|done].
    cbv zeta.
    match goal with
    | |- context [decrease_stamina ?n ?r ?x] =>
        pose proof (decrease_stamina_gear n r x) as G
    end.
    unfold gear in G. injection G as -> -> -> _. done. }
  destruct H3 as (Ha & Hw & Hl).
  destruct H1 as (W1 & S1 & L1), H2 as (W2 & L2 & S2).
  split; [congruence|]. split; [rewrite Ha; auto|].
  rewrite Hl, L2. exact L1.
Qed.

(** X9: no weapon is drawn that the player does not own. After a frame of
    [process_input] the weapon in hand is the one from before the frame,
    or the knife, or a weapon that the arsenal marked as owned when the
    frame began. *)
Theorem process_input_draws_owned_weapons_only inp p q :
  process_input PLAYER_SPEED weapon_rate weapon_kickback weapon_weight
    weapon_wobble weapon_clip_size rotate inp p = Ok q ->
  weapon q = weapon p \/ owned (arsenal p) (weapon q).
Proof.
  unfold process_input. intros H.
  destruct (handle_input _ _ _ _ _ _ _ inp p) as [p1|] eqn:E;
    cbn [bind] in H; [|done].
  apply rest_when_idle_gear in H.
  assert (Hq : weapon q = weapon p1).
  { unfold gear in H. injection H as _ Hw _ _. revert Hw.
    unfold scale_diagonal. destruct (is_diagonal _); cbn; congruence. }
  rewrite Hq. clear H Hq q. unfold handle_input in E. cbv zeta in E.
  match type of E with
  | context [update_rotation inp ?x] =>
      pose proof (update_rotation_gear inp x) as G0;
      set (p0 := update_rotation inp x) in *
  end.
  cbn in G0.
  destruct (handle_player_movement _ _ _ inp p0) as [pm|] eqn:Em;
    cbn [bind] in E; [|done].
  apply handle_player_movement_gear in Em. rewrite G0 in Em.
  unfold gear in Em. injection Em as Ha Hw _ _.
  destruct (negb (play_static_animation pm)).
  - destruct (handle_weapon_selection inp pm) as [ps|] eqn:Es;
      cbn [bind] in E; [|done].
    apply handle_weapon_selection_owned in Es.
    destruct Es as (_ & _ & _ & Ho).
    apply handle_combat_controls_effect in E. destruct E as (Hc & _).
    rewrite Hc, <- Hw, <- Ha. exact Ho.
  - injection E as <-. by left.
Qed.

(** X10: the counts of the arsenal do not go below zero. If every number
    in the arsenal is at least 0 before a frame of [process_input], so it
    is afterwards: a shot is taken from a clip that is not empty, and a
    reload from a stock of reloads that is not empty. (The clip sizes of
    [WEAPONS] are taken to be at least 0.) *)
Theorem process_input_keeps_the_arsenal_stocked inp p q :
  (forall w, (0 <= weapon_clip_size w)%Z) ->
  stocked (arsenal p) ->
  process_input PLAYER_SPEED weapon_rate weapon_kickback weapon_weight
    weapon_wobble weapon_clip_size rotate inp p = Ok q ->
  stocked (arsenal q).
Proof.
  intros Hcs Hst. unfold process_input. intros H.
  destruct (handle_input _ _ _ _ _ _ _ inp p) as [p1|] eqn:E;
    cbn [bind] in H; [|done].
  apply rest_when_idle_gear in H.
  assert (Hq : arsenal q = arsenal p1).
  { unfold gear in H. injection H as Ha _ _ _. revert Ha.
    unfold scale_diagonal. destruct (is_diagonal _); cbn; congruence. }
  rewrite Hq. clear H Hq q. unfold handle_input in E. cbv zeta in E.
  match type of E with
  | context [update_rotation inp ?x] =>
      pose proof (update_rotation_gear inp x) as G0;
      set (p0 := update_rotation inp x) in *
  end.
  cbn in G0.
  destruct (handle_player_movement _ _ _ inp p0) as [pm|] eqn:Em;
    cbn [bind] in E; [|done].
  apply handle_player_movement_gear in Em. rewrite G0 in Em.
  unfold gear in Em. injection Em as Ha _ _ _.
  destruct (negb (play_static_animation pm)).
  - destruct (handle_weapon_selection inp pm) as [ps|] eqn:Es;
      cbn [bind] in E; [|done].
    apply handle_weapon_selection_owned in Es. destruct Es as (Hs & _).
    apply handle_combat_controls_effect in E. destruct E as (_ & Hc & _).
    apply Hc; [exact Hcs|]. by rewrite Hs, Ha.
  - injection E as <-. by rewrite Ha.
Qed.

(** X11: the pace of the shots. If a frame of [process_input] changes the
    time of the last shot, it sets it to the clock of the frame; the left
    button was down, more than the rate of the weapon in hand had passed
    since the shot before, that weapon is not the knife, and no canned
    animation was playing. *)
Theorem process_input_paces_the_shots inp p q :
  process_input PLAYER_SPEED weapon_rate weapon_kickback weapon_weight
    weapon_wobble weapon_clip_size rotate inp p = Ok q ->
  last_shot q <> last_shot p ->
  last_shot q = now inp /\ lc inp = true
  /\ weapon q <> "knife"%string
  /\ (now inp - last_shot p > weapon_rate (weapon q))%Z
  /\ play_static_animation p = false.
Proof.
  unfold process_input. intros H Hne.
  destruct (handle_input _ _ _ _ _ _ _ inp p) as [p1|] eqn:E;
    cbn [bind] in H; [|done].
  apply rest_when_idle_gear in H.
  assert (Hq : last_shot q = last_shot p1 /\ weapon q = weapon p1).
  { unfold gear in H. injection H as _ Hw Hl _. revert Hw Hl.
    unfold scale_diagonal. destruct (is_diagonal _); cbn; split; congruence. }
  destruct Hq as [Hq1 Hq2]. rewrite Hq1, Hq2 in *. clear H Hq1 Hq2 q.
  unfold handle_input in E. cbv zeta in E.
  match type of E with
  | context [update_rotation inp ?x] =>
      pose proof (update_rotation_gear inp x) as G0;
      set (p0 := update_rotation inp x) in *
  end.
  cbn in G0.
  destruct (handle_player_movement _ _ _ inp p0) as [pm|] eqn:Em;
    cbn [bind] in E; [|done].
  apply handle_player_movement_gear in Em. rewrite G0 in Em.
  unfold gear in Em. injection Em as _ _ Hl Hp.
  destruct (play_static_animation pm) eqn:Hps; cbn [negb] in E.
  - injection E as <-. congruence.
  - destruct (handle_weapon_selection inp pm) as [ps|] eqn:Es;
      cbn [bind] in E; [|done].
    apply handle_weapon_selection_owned in Es. destruct Es as (_ & Hls & _).
    apply handle_combat_controls_effect in E.
    destruct E as (Hw & _ & [Hl1|(Hl1 & Hlc & Hk & Hr & _)]); [congruence|].
    rewrite Hw. rewrite Hls, Hl in Hr.
    split; [done|]. split; [done|]. split; [done|]. split; [done|]. done.
Qed.

(** *** Keys and the compass *)

Lemma between_true lo x hi : lo < x -> x <= hi -> between lo x hi = true.
Proof.
  intros H1 H2. unfold between. apply andb_true_iff.
  split; [by apply Qltb_lt|by apply Qle_bool_iff].
Qed.

Lemma between_false lo x hi : x <= lo \/ hi < x -> between lo x hi = false.
Proof.
  intros H. unfold between. apply andb_false_iff. destruct H as [H|H].
  - left. by apply Qltb_ge.
  - right. destruct (Qle_bool x hi) eqn:E; [|done].
    apply Qle_bool_iff in E. lra.
Qed.

Ltac settle_compass r :=
  repeat match goal with
  | |- context [between ?a r ?b] =>
      first [rewrite (between_true a r b) by lra
            |rewrite (between_false a r b) by (left; lra)
            |rewrite (between_false a r b) by (right; lra)]
  end; reflexivity.

(** X12: opposite keys. The velocity that [handle_player_movement] leaves
    is decided key by key: along [x] the key [d] wins over [a], along [y]
    the key [s] wins over [w], and an axis without a key keeps the
    component it had; the speed is doubled when the space bar is down and
    stamina is left. *)
Theorem handle_player_movement_velocity inp p q :
  handle_player_movement PLAYER_SPEED weapon_weight weapon_wobble inp p = Ok q ->
  vx (vel q)
  = (if K_d (keys inp) then speed PLAYER_SPEED inp p
     else if K_a (keys inp)
          then (if K_SPACE (keys inp) && Qltb 0 (stamina p)
                then - PLAYER_SPEED * 2 else - PLAYER_SPEED * 1)
          else vx (vel p))
  /\ vy (vel q)
  = (if K_s (keys inp) then speed PLAYER_SPEED inp p
     else if K_w (keys inp)
          then (if K_SPACE (keys inp) && Qltb 0 (stamina p)
                then - PLAYER_SPEED * 2 else - PLAYER_SPEED * 1)
          else vy (vel p)).
Proof.
  unfold handle_player_movement, speed. cbv zeta.
  destruct (K_SPACE (keys inp) && Qltb 0 (stamina p)).
  - intros [= <-].
    repeat match goal with
    | |- context [sprint_block ?w ?b ?i ?f ?r] =>
        let Hv := fresh "Hv" in
        destruct (sprint_block_keeps w b i f r) as (Hv & _);
        generalize dependent (sprint_block w b i f r); intros
    end.
    destruct (K_a (keys inp)), (K_d (keys inp)), (K_w (keys inp)),
      (K_s (keys inp));
      repeat match goal with
      | H : vel _ = _ |- _ => rewrite H; clear H
      end; done.
  - intros H.
    repeat match type of H with
    | bind (if ?c then _ else _) _ = Ok _ => destruct c
    | bind (walk_block ?w ?b ?i ?f ?r) _ = Ok _ =>
        let E := fresh "E" in
        destruct (walk_block w b i f r) as [?|?] eqn:E; [|discriminate H];
        apply walk_block_keeps in E; destruct E as [? _]
    | bind (Ok _) _ = Ok _ => cbn [bind] in H
    end;
    injection H as <-;
    repeat match goal with
    | H : vel _ = _ |- _ => rewrite H; clear H
    end; done.
Qed.

(** X13: the compass and the mouse. For an angle to the mouse between
    -182 and 178 degrees the direction after [update_rotation] depends on
    the angle alone. For an angle above 178 degrees, where the rotation
    (the angle plus 2) exceeds 180, no branch of [update_direction]
    applies and the player keeps the direction of the frame before. *)
Theorem update_rotation_direction inp p :
  (-(182) < mouse_angle inp -> mouse_angle inp <= 178 ->
   forall p', direction (update_rotation inp p)
              = direction (update_rotation inp p'))
  /\ (178 < mouse_angle inp ->
      direction (update_rotation inp p) = direction p).
Proof.
  unfold update_rotation, update_direction. cbn [rot set_rot].
  set (r := mouse_angle inp + 2).
  split.
  - intros Hlo Hhi p'.
    assert (H1 : -(180) < r) by (subst r; lra).
    assert (H2 : r <= 180) by (subst r; lra).
    clearbody r.
    destruct (Qlt_le_dec (-(315#2)) r) as [A1|A1]; [|settle_compass r].
    destruct (Qlt_le_dec (-(225#2)) r) as [A2|A2]; [|settle_compass r].
    destruct (Qlt_le_dec (-(135#2)) r) as [A3|A3]; [|settle_compass r].
    destruct (Qlt_le_dec (-(45#2)) r) as [A4|A4]; [|settle_compass r].
    destruct (Qlt_le_dec (45#2) r) as [A5|A5]; [|settle_compass r].
    destruct (Qlt_le_dec (135#2) r) as [A6|A6]; [|settle_compass r].
    destruct (Qlt_le_dec (225#2) r) as [A7|A7]; [|settle_compass r].
    destruct (Qlt_le_dec (315#2) r) as [A8|A8]; settle_compass r.
  - intros Hhi. assert (H1 : 180 < r) by (subst r; lra).
    clearbody r. settle_compass r.
Qed.

(** X16: a canned animation holds the gun. While a reload or a swing is
    playing ([play_static_animation] is up), a frame of [process_input]
    only moves the player: the weapon in hand, the arsenal and the time of
    the last shot are as before, and the flag stays up. *)
Theorem canned_animation_holds_the_gun inp p q :
  play_static_animation p = true ->
  process_input PLAYER_SPEED weapon_rate weapon_kickback weapon_weight
    weapon_wobble weapon_clip_size rotate inp p = Ok q ->
  arsenal q = arsenal p /\ weapon q = weapon p
  /\ last_shot q = last_shot p /\ play_static_animation q = true.
Proof.
  intros Hps. unfold process_input. intros H.
  destruct (handle_input _ _ _ _ _ _ _ inp p) as [p1|] eqn:E;
    cbn [bind] in H; [|done].
  apply rest_when_idle_gear in H.
  assert (Hq : gear q = gear p1).
  { rewrite H. unfold scale_diagonal. by destruct (is_diagonal _). }
  clear H. unfold handle_input in E. cbv zeta in E.
  match type of E with
  | context [update_rotation inp ?x] =>
      pose proof (update_rotation_gear inp x) as G0;
      set (p0 := update_rotation inp x) in *
  end.
  cbn in G0.
  destruct (handle_player_movement _ _ _ inp p0) as [pm|] eqn:Em;
    cbn [bind] in E; [|done].
  apply handle_player_movement_gear in Em. rewrite G0 in Em.
  assert (Hpm : play_static_animation pm = true).
  { unfold gear in Em. injection Em as _ _ _ Hx. congruence. }
  rewrite Hpm in E. cbn [negb] in E. injection E as <-.
  rewrite Em in Hq. unfold gear in Hq. injection Hq as -> -> -> ->. done.
Qed.

End Settings.

(** *** The extras on concrete settings *)

Lemma weapon_pickup_twice_witness :
  arsenal example_init !! "rifle"%string = Some firearm_slot
  /\ firearm_slot !! "hasWeapon"%string = Some 0%Z
  /\ exists p1 p2,
      pickup_item 100 clip_size_all (WeaponPickup "rifle" 3) example_init = Ok p1
      /\ pickup_item 100 clip_size_all (WeaponPickup "rifle" 3) p1 = Ok p2
      /\ arsenal_get (arsenal p1) "rifle" "hasWeapon" = Ok 1%Z
      /\ arsenal_get (arsenal p1) "rifle" "reloads" = Ok (3 - 1)%Z
      /\ arsenal_get (arsenal p1) "rifle" "clip" = Ok (clip_size_all "rifle")
      /\ arsenal_get (arsenal p2) "rifle" "hasWeapon" = Ok 1%Z
      /\ arsenal_get (arsenal p2) "rifle" "reloads" = Ok (3 - 1 + 3)%Z
      /\ arsenal_get (arsenal p2) "rifle" "clip" = Ok (clip_size_all "rifle")
      /\ (forall w, w <> "rifle"%string ->
            arsenal p2 !! w = arsenal example_init !! w)
      /\ health p2 = health example_init /\ weapon p2 = weapon example_init.
Proof.
  assert (H1 : arsenal example_init !! "rifle"%string = Some firearm_slot)
    by (vm_compute; reflexivity).
  assert (H2 : firearm_slot !! "hasWeapon"%string = Some 0%Z)
    by (vm_compute; reflexivity).
  split; [exact H1|]. split; [exact H2|].
  exact (weapon_pickup_twice 100 clip_size_all "rifle" 3 example_init
           firearm_slot H1 H2).
Defined.



(** A player who has picked up a rifle, and a frame 1000 ms into the level
    in which the player draws it (key 1) and pulls the trigger. *)
Definition armed : Player :=
  Eval vm_compute in
    match pickup_item 100 clip_size_all (WeaponPickup "rifle" 3) example_init with
    | Ok q => q
    | Raise _ => example_init
    end.

Definition draw_and_fire : Input :=
  {| keys := mkKeys false false false false false false true false false false;
     lc := true; rc := false; mouse_angle := 0; now := 1000 |}.

Definition after_fire : Player :=
  Eval vm_compute in
    match process_input 300 rate_all kickback_all weight_all wobble_all
            clip_size_all no_rotate draw_and_fire armed with
    | Ok q => q
    | Raise _ => armed
    end.

Example the_shot :
  weapon after_fire = "rifle"%string /\ last_shot after_fire = 1000%Z
  /\ arsenal_get (arsenal after_fire) "rifle" "clip" = Ok 5%Z
  /\ action after_fire = "shoot"%string.
Proof. repeat split; vm_compute; reflexivity. Qed.

Lemma draws_owned_weapons_witness :
  process_input 300 rate_all kickback_all weight_all wobble_all
    clip_size_all no_rotate draw_and_fire armed = Ok after_fire
  /\ (weapon after_fire = weapon armed
      \/ owned (arsenal armed) (weapon after_fire)).
Proof.
  assert (H : process_input 300 rate_all kickback_all weight_all wobble_all
                clip_size_all no_rotate draw_and_fire armed = Ok after_fire)
    by (vm_compute; reflexivity).
  split; [exact H|].
  exact (process_input_draws_owned_weapons_only 300 rate_all kickback_all
           weight_all wobble_all clip_size_all no_rotate draw_and_fire armed
           after_fire H).
Defined.

Lemma keeps_the_arsenal_stocked_witness :
  (forall w, (0 <= clip_size_all w)%Z)
  /\ stocked (arsenal example_init)
  /\ process_input 300 rate_all kickback_all weight_all wobble_all
       clip_size_all no_rotate up_left example_init = Ok after_up_left
  /\ stocked (arsenal after_up_left).
Proof.
  assert (H1 : forall w, (0 <= clip_size_all w)%Z)
    by (intros w; vm_compute; discriminate).
  assert (H2 : stocked (arsenal example_init)) by exact stocked_initial.
  assert (H3 : process_input 300 rate_all kickback_all weight_all wobble_all
                 clip_size_all no_rotate up_left example_init = Ok after_up_left)
    by (vm_compute; reflexivity).
  split; [exact H1|]. split; [exact H2|]. split; [exact H3|].
  exact (process_input_keeps_the_arsenal_stocked 300 rate_all kickback_all
           weight_all wobble_all clip_size_all no_rotate up_left example_init
           after_up_left H1 H2 H3).
Defined.

Lemma paces_the_shots_witness :
  process_input 300 rate_all kickback_all weight_all wobble_all
    clip_size_all no_rotate draw_and_fire armed = Ok after_fire
  /\ last_shot after_fire <> last_shot armed
  /\ last_shot after_fire = now draw_and_fire /\ lc draw_and_fire = true
  /\ weapon after_fire <> "knife"%string
  /\ (now draw_and_fire - last_shot armed > rate_all (weapon after_fire))%Z
  /\ play_static_animation armed = false.
Proof.
  assert (H1 : process_input 300 rate_all kickback_all weight_all wobble_all
                 clip_size_all no_rotate draw_and_fire armed = Ok after_fire)
    by (vm_compute; reflexivity).
  assert (H2 : last_shot after_fire <> last_shot armed)
    by (vm_compute; discriminate).
  split; [exact H1|]. split; [exact H2|].
  exact (process_input_paces_the_shots 300 rate_all kickback_all weight_all
           wobble_all clip_size_all no_rotate draw_and_fire armed after_fire
           H1 H2).
Defined.

(** The keys [a] and [d] held down together: the player goes right. *)
Definition left_and_right : Input :=
  {| keys := mkKeys false true true false false false false false false false;
     lc := false; rc := false; mouse_angle := 0; now := 16 |}.

Definition after_left_and_right : Player :=
  Eval vm_compute in
    match handle_player_movement 300 weight_all wobble_all left_and_right
            example_init with
    | Ok q => q
    | Raise _ => example_init
    end.

Lemma movement_velocity_witness :
  handle_player_movement 300 weight_all wobble_all left_and_right example_init
  = Ok after_left_and_right
  /\ vx (vel after_left_and_right) = speed 300 left_and_right example_init
  /\ vy (vel after_left_and_right) = vy (vel example_init).
Proof.
  assert (H : handle_player_movement 300 weight_all wobble_all left_and_right
                example_init = Ok after_left_and_right)
    by (vm_compute; reflexivity).
  split; [exact H|].
  exact (handle_player_movement_velocity 300 weight_all wobble_all
           left_and_right example_init after_left_and_right H).
Defined.

(** The player in the middle of a swing of the knife. *)
Definition swinging : Player :=
  set_play_static_animation true (set_canned_action "melee" example_init).

Definition after_swinging_frame : Player :=
  Eval vm_compute in
    match process_input 300 rate_all kickback_all weight_all wobble_all
            clip_size_all no_rotate draw_and_fire swinging with
    | Ok q => q
    | Raise _ => swinging
    end.

Lemma canned_animation_holds_the_gun_witness :
  play_static_animation swinging = true
  /\ process_input 300 rate_all kickback_all weight_all wobble_all
       clip_size_all no_rotate draw_and_fire swinging = Ok after_swinging_frame
  /\ arsenal after_swinging_frame = arsenal swinging
  /\ weapon after_swinging_frame = weapon swinging
  /\ last_shot after_swinging_frame = last_shot swinging
  /\ play_static_animation after_swinging_frame = true.
Proof.
  assert (H1 : play_static_animation swinging = true) by reflexivity.
  assert (H2 : process_input 300 rate_all kickback_all weight_all wobble_all
                 clip_size_all no_rotate draw_and_fire swinging
               = Ok after_swinging_frame) by (vm_compute; reflexivity).
  split; [exact H1|]. split; [exact H2|].
  exact (canned_animation_holds_the_gun 300 rate_all kickback_all weight_all
           wobble_all clip_size_all no_rotate draw_and_fire swinging
           after_swinging_frame H1 H2).
Defined.

End PlayerFacts.

(* ===================================================================== *)
(** ** The animation of the player: [Player.animate]                      *)
(* ===================================================================== *)

Module Animation.

Import PlayerStats.
Open Scope Z_scope.
Unset Implicit Arguments.

(** What [animate] can raise. *)
Inductive anim_exn :=
| MissingKey (key : string)
| DivisionByZero
| IndexOutOfRange.

Inductive Outcome (A : Type) : Type :=
| Done (a : A)
| Failed (e : anim_exn).
Arguments Done {A} a.
Arguments Failed {A} e.

(** The player together with the two attributes of the animation that the
    player of [PlayerStats] leaves out: [last_update], and the frame that
    [self.image] shows (the weapon and the action of the animation and the
    index into it). *)
Record Animated := mkAnimated {
  player : Player;
  last_update : Z;
  image : option (string * string * Z)
}.

Section Assets.

(** [self.game.player_animations], by the number of frames of each
    animation, and [WEAPONS['animation times']]. *)
Variable player_animations : gmap string (gmap string nat).
Variable animation_time : string -> string -> Z.

(** [len(self.game.player_animations[w][a])]. *)
Definition frames (w a : string) : Outcome nat :=
  match player_animations !! w with
  | None => Failed (MissingKey w)
  | Some d =>
      match d !! a with
      | None => Failed (MissingKey a)
      | Some n => Done n
      end
  end.

(** [self.animations[i]] is there: a list of [n] frames can be indexed
    from [-n] to [n - 1]. *)
Definition indexable (n : nat) (i : Z) : bool :=
  (- Z.of_nat n <=? i) && (i <? Z.of_nat n).

(** [Player.animate], with [now] the clock value it reads. *)
Definition animate (now : Z) (s : Animated) : Outcome Animated :=
  let p := player s in
  if negb (play_static_animation p) then
    match frames (weapon p) (action p) with
    | Failed e => Failed e
    | Done n =>
        if Nat.eqb n 0 then Failed DivisionByZero else
        let p1 := set_current_frame (current_frame p mod Z.of_nat n) p in
        let s1 :=
          if now - last_update s >? animation_time (weapon p) (action p) then
            mkAnimated
              (set_current_frame ((current_frame p1 + 1) mod Z.of_nat n) p1)
              now (image s)
          else mkAnimated p1 (last_update s) (image s) in
        if indexable n (current_frame (player s1)) then
          Done (mkAnimated (player s1) (last_update s1)
                  (Some (weapon p, action p, current_frame (player s1))))
        else Failed IndexOutOfRange
    end
  else
    match frames (weapon p) (canned_action p) with
    | Failed e => Failed e
    | Done n =>
        if now - last_update s >? animation_time (weapon p) (canned_action p) then
          let p1 := set_current_frame (current_frame p + 1) p in
          if indexable n (current_frame p1) then
            Done (mkAnimated p1 now
                    (Some (weapon p, canned_action p, current_frame p1)))
          else
            let p2 := set_play_static_animation false p1 in
            let p3 := set_canned_action "" p2 in
            Done (mkAnimated (set_current_frame 0 p3) now (image s))
        else Done s
    end.

(** Calls of [animate] one after the other; the first failure ends them. *)
Fixpoint animate_all (ticks : list Z) (s : Animated) : Outcome Animated :=
  match ticks with
  | [] => Done s
  | now :: rest =>
      match animate now s with
      | Done s' => animate_all rest s'
      | Failed e => Failed e
      end
  end.

(** X14: the frame of the running animation is always there. Outside a
    canned animation, whatever the frame counter was (left over from
    another weapon or action), one call of [animate] brings it into the
    range of the animation before it is used as an index; the image is
    that frame. An animation without frames divides by zero. *)
Theorem animate_brings_the_frame_into_range now s n :
  play_static_animation (player s) = false ->
  frames (weapon (player s)) (action (player s)) = Done n ->
  (n = 0%nat -> animate now s = Failed DivisionByZero)
  /\ (n <> 0%nat ->
      exists s', animate now s = Done s'
        /\ 0 <= current_frame (player s') < Z.of_nat n
        /\ image s' = Some (weapon (player s), action (player s),
                            current_frame (player s'))).
Proof.
  intros Hps Hf. unfold animate. cbv zeta. rewrite Hps, Hf. cbn [negb].
  split; [intros ->; done|]. intros Hn.
  destruct (Nat.eqb_spec n 0) as [|_]; [done|].
  assert (Hpos : 0 < Z.of_nat n) by lia.
  destruct (_ >? _); cbn [player last_update image current_frame
                            set_current_frame].
  - pose proof (Z.mod_pos_bound
      (current_frame (player s) mod Z.of_nat n + 1) (Z.of_nat n) Hpos) as Hb.
    unfold indexable.
    destruct (Z.leb_spec (- Z.of_nat n)
                ((current_frame (player s) mod Z.of_nat n + 1) mod Z.of_nat n));
      [|lia].
    destruct (Z.ltb_spec
                ((current_frame (player s) mod Z.of_nat n + 1) mod Z.of_nat n)
                (Z.of_nat n)); [|lia].
    cbn [andb]. eexists. split; [reflexivity|]. cbn. done.
  - pose proof (Z.mod_pos_bound (current_frame (player s)) (Z.of_nat n) Hpos)
      as Hb.
    unfold indexable.
    destruct (Z.leb_spec (- Z.of_nat n) (current_frame (player s) mod Z.of_nat n));
      [|lia].
    destruct (Z.ltb_spec (current_frame (player s) mod Z.of_nat n) (Z.of_nat n));
      [|lia].
    cbn [andb]. eexists. split; [reflexivity|]. cbn. done.
Qed.

(** Clock values at each of which the timer of the animation has run out:
    each is more than [period] after the one before. *)
Fixpoint expiring (period last : Z) (ticks : list Z) : Prop :=
  match ticks with
  | [] => True
  | now :: rest => now - last > period /\ expiring period now rest
  end.

Lemma canned_step now s n :
  play_static_animation (player s) = true ->
  frames (weapon (player s)) (canned_action (player s)) = Done n ->
  now - last_update s
  > animation_time (weapon (player s)) (canned_action (player s)) ->
  animate now s
  = if indexable n (current_frame (player s) + 1) then
      Done (mkAnimated (set_current_frame (current_frame (player s) + 1) (player s))
              now
              (Some (weapon (player s), canned_action (player s),
                     current_frame (player s) + 1)))
    else
      Done (mkAnimated
              (set_current_frame 0
                 (set_canned_action ""
                    (set_play_static_animation false
                       (set_current_frame (current_frame (player s) + 1)
                          (player s)))))
              now (image s)).
Proof.
  intros Hps Hf Hgt. unfold animate. cbv zeta. rewrite Hps, Hf. cbn [negb].
  destruct (Z.gtb_spec (now - last_update s)
              (animation_time (weapon (player s)) (canned_action (player s))));
    [|lia].
  done.
Qed.

(** X15: the length of a canned animation. A reload or a swing starts a
    canned animation at frame 0. With an animation of [n] frames, calls of
    [animate] at which the timer has run out show the frames after the
    one it started at, one by one, as long as they are below [n] (so
    frame 0 is never shown), and the canned animation is still on; the
    call that would reach frame [n] ends it: the flag is down, the canned
    action is empty and the frame counter is 0. *)
Theorem canned_animation_runs_its_length ticks : forall s n,
  play_static_animation (player s) = true ->
  0 <= current_frame (player s) ->
  frames (weapon (player s)) (canned_action (player s)) = Done n ->
  expiring (animation_time (weapon (player s)) (canned_action (player s)))
    (last_update s) ticks ->
  ticks <> [] ->
  (current_frame (player s) + Z.of_nat (length ticks) < Z.of_nat n ->
   exists s', animate_all ticks s = Done s'
     /\ play_static_animation (player s') = true
     /\ canned_action (player s') = canned_action (player s)
     /\ weapon (player s') = weapon (player s)
     /\ current_frame (player s')
        = current_frame (player s) + Z.of_nat (length ticks)
     /\ image s' = Some (weapon (player s), canned_action (player s),
                         current_frame (player s')))
  /\ (current_frame (player s) + Z.of_nat (length ticks) = Z.of_nat n ->
      exists s', animate_all ticks s = Done s'
        /\ play_static_animation (player s') = false
        /\ canned_action (player s') = ""%string
        /\ current_frame (player s') = 0).
Proof.
  induction ticks as [|now rest IH]; intros s n Hps H0 Hf Hex Hne; [done|].
  destruct Hex as [Hgt Hex]. cbn [animate_all length].
  rewrite (canned_step now s n Hps Hf Hgt).
  set (s1 := mkAnimated
               (set_current_frame (current_frame (player s) + 1) (player s))
               now
               (Some (weapon (player s), canned_action (player s),
                      current_frame (player s) + 1))).
  destruct rest as [|now' rest'].
  - cbn [length animate_all]. split; intros Hn.
    + assert (Hi : indexable n (current_frame (player s) + 1) = true).
      { unfold indexable. apply andb_true_iff.
        split; [apply Z.leb_le|apply Z.ltb_lt]; lia. }
      rewrite Hi. exists s1. subst s1. cbn. repeat split; try done.
    + assert (Hi : indexable n (current_frame (player s) + 1) = false).
      { unfold indexable. apply andb_false_iff. right. apply Z.ltb_ge. lia. }
      rewrite Hi. eexists. split; [reflexivity|]. cbn. done.
  - assert (Hr : now' :: rest' <> []) by done.
    remember (now' :: rest') as rest eqn:Erest. clear Erest now' rest'.
    assert (Hlen : 0 < Z.of_nat (length rest)) by (destruct rest; [done|cbn; lia]).
    assert (Hi : indexable n (current_frame (player s) + 1) = true
                 \/ Z.of_nat n < current_frame (player s) + 2).
    { unfold indexable.
      destruct (Z.ltb_spec (current_frame (player s) + 1) (Z.of_nat n));
        [left|right; lia].
      apply andb_true_iff. split; [apply Z.leb_le; lia|done]. }
    destruct (IH s1 n) as [I1 I2]; subst s1; cbn [player last_update image
      play_static_animation canned_action weapon current_frame
      set_current_frame]; try done; try lia.
    cbn [player last_update image play_static_animation canned_action weapon
           current_frame set_current_frame] in I1, I2.
    split; intros Hn; (destruct Hi as [Hi|Hi]; [rewrite Hi|lia]).
    + destruct I1 as (s' & E & A1 & A2 & A3 & A4 & A5); [lia|].
      exists s'. rewrite E, A1, A2, A3, A5, A4.
      repeat split; try done; lia.
    + destruct I2 as (s' & E & A1 & A2 & A3); [lia|].
      exists s'. done.
Qed.

End Assets.

(** *** A swing of three frames *)

(** Animations of the knife: 20 frames to stand, 20 to walk, 3 to swing;
    every frame stays for 100 ms. *)
Definition knife_animations : gmap string (gmap string nat) :=
  {[ "knife"%string :=
       <["idle"%string := 20%nat]>
         (<["move"%string := 20%nat]> {[ "melee"%string := 3%nat ]}) ]}.

Definition every_100ms (w a : string) : Z := 100.

Definition standing : Animated := mkAnimated example_init 0 None.

Definition mid_swing : Animated := mkAnimated PlayerFacts.swinging 0 None.

Definition three_expiries : list Z := [101; 202; 303].

Lemma animate_brings_the_frame_into_range_witness :
  play_static_animation (player standing) = false
  /\ frames knife_animations (weapon (player standing)) (action (player standing))
     = Done 20%nat
  /\ (20%nat <> 0%nat ->
      exists s', animate knife_animations every_100ms 16 standing = Done s'
        /\ 0 <= current_frame (player s') < Z.of_nat 20
        /\ image s' = Some (weapon (player standing), action (player standing),
                            current_frame (player s'))).
Proof.
  assert (H1 : play_static_animation (player standing) = false) by reflexivity.
  assert (H2 : frames knife_animations (weapon (player standing))
                 (action (player standing)) = Done 20%nat)
    by (vm_compute; reflexivity).
  split; [exact H1|]. split; [exact H2|].
  exact (proj2 (animate_brings_the_frame_into_range knife_animations
                  every_100ms 16 standing 20%nat H1 H2)).
Defined.

Lemma canned_animation_witness :
  play_static_animation (player mid_swing) = true
  /\ 0 <= current_frame (player mid_swing)
  /\ frames knife_animations (weapon (player mid_swing))
       (canned_action (player mid_swing)) = Done 3%nat
  /\ expiring (every_100ms (weapon (player mid_swing))
                 (canned_action (player mid_swing)))
       (last_update mid_swing) three_expiries
  /\ three_expiries <> []
  /\ (current_frame (player mid_swing) + Z.of_nat (length three_expiries)
      = Z.of_nat 3 ->
      exists s', animate_all knife_animations every_100ms three_expiries mid_swing
                 = Done s'
        /\ play_static_animation (player s') = false
        /\ canned_action (player s') = ""%string
        /\ current_frame (player s') = 0).
Proof.
  assert (H1 : play_static_animation (player mid_swing) = true) by reflexivity.
  assert (H2 : 0 <= current_frame (player mid_swing)) by (vm_compute; discriminate).
  assert (H3 : frames knife_animations (weapon (player mid_swing))
                 (canned_action (player mid_swing)) = Done 3%nat)
    by (vm_compute; reflexivity).
  assert (H4 : expiring (every_100ms (weapon (player mid_swing))
                           (canned_action (player mid_swing)))
                 (last_update mid_swing) three_expiries)
    by (vm_compute; repeat split).
  assert (H5 : three_expiries <> []) by discriminate.
  split; [exact H1|]. split; [exact H2|]. split; [exact H3|].
  split; [exact H4|]. split; [exact H5|].
  exact (proj2 (canned_animation_runs_its_length knife_animations every_100ms
                  three_expiries mid_swing 3%nat H1 H2 H3 H4 H5)).
Defined.

End Animation.

(* ===================================================================== *)
(** ** Loading a level: [Game.new]                                        *)
(* ===================================================================== *)

Module Level.

Import Floats.
Open Scope Z_scope.
Unset Implicit Arguments.

(** What the two loops over the map collect: the positions of the walls,
    the arguments with which the player was created (the last ['P'] is
    the one that [self.player] keeps), the positions of the mobs and of
    the weapon pickups. *)
Record Spawned := mkSpawned {
  wall_positions : list (Z * Z);
  player_args : option (Z * Z);
  mob_positions : list (Z * Z);
  weapon_positions : list (Z * Z)
}.

Definition nothing : Spawned := mkSpawned [] None [] [].

Section Tiles.

(** [TILESIZE] of [settings.py], a whole number of pixels. *)
Variable TILESIZE : Z.

(** The body of the inner loop for the tile at [row], [col]. *)
Definition visit (row col : nat) (tile : ascii) (lv : Spawned) : Spawned :=
  let here := (Z.of_nat col * TILESIZE, Z.of_nat row * TILESIZE) in
  let lv := if Ascii.eqb tile "1"%char
            then mkSpawned (wall_positions lv ++ [here]) (player_args lv)
                   (mob_positions lv) (weapon_positions lv)
            else lv in
  let lv := if Ascii.eqb tile "P"%char
            then mkSpawned (wall_positions lv) (Some here)
                   (mob_positions lv) (weapon_positions lv)
            else lv in
  let lv := if Ascii.eqb tile "E"%char
            then mkSpawned (wall_positions lv) (player_args lv)
                   (mob_positions lv ++ [here]) (weapon_positions lv)
            else lv in
  if Ascii.eqb tile "W"%char
  then mkSpawned (wall_positions lv) (player_args lv)
         (mob_positions lv) (weapon_positions lv ++ [here])
  else lv.

(** [for col, tile in enumerate(tiles)], from column [col] on. *)
Fixpoint scan_row (row col : nat) (tiles : list ascii) (lv : Spawned) : Spawned :=
  match tiles with
  | [] => lv
  | tile :: rest => scan_row row (S col) rest (visit row col tile lv)
  end.

(** [for row, tiles in enumerate(self.map.data)], from row [row] on. *)
Fixpoint scan (row : nat) (data : list (list ascii)) (lv : Spawned) : Spawned :=
  match data with
  | [] => lv
  | tiles :: rest => scan (S row) rest (scan_row row 0 tiles lv)
  end.

(** [self.game_graph.walls]: the wall positions divided by the tile size. *)
Definition graph_walls (lv : Spawned) : list (Z * Z) :=
  (fun wall => (fst wall / TILESIZE, snd wall / TILESIZE)) <$> wall_positions lv.

(** The part of [Game.new] that reads the map, each line of it a list of
    characters. *)
Definition new (data : list (list ascii)) : Spawned := scan 0 data nothing.

(** [self.pos = vec(x, y) * TILESIZE] of [Player.__init__]. *)
Definition player_pos (args : Z * Z) : Z * Z :=
  (fst args * TILESIZE, snd args * TILESIZE).

(** The tile in which [Game.find_path] looks for a sprite at a position
    of whole pixels: [Pathfinding.tile_of] at that position. *)
Definition path_tile (pos : Z * Z) : Z * Z :=
  Pathfinding.tile_of (inject_Z TILESIZE) (inject_Z (fst pos), inject_Z (snd pos)).

(** The character of the map at a column and a row. *)
Definition tile_at (data : list (list ascii)) (col row : nat) : option ascii :=
  match data !! row with
  | Some tiles => tiles !! col
  | None => None
  end.

(** *** Walls *)

Lemma visit_walls row col tile lv :
  wall_positions (visit row col tile lv)
  = if Ascii.eqb tile "1"%char
    then wall_positions lv ++ [(Z.of_nat col * TILESIZE, Z.of_nat row * TILESIZE)]
    else wall_positions lv.
Proof.
  unfold visit. cbv zeta.
  destruct (Ascii.eqb tile "1"), (Ascii.eqb tile "P"), (Ascii.eqb tile "E"),
    (Ascii.eqb tile "W"); reflexivity.
Qed.

Lemma visit_player row col tile lv :
  player_args (visit row col tile lv)
  = if Ascii.eqb tile "P"%char
    then Some (Z.of_nat col * TILESIZE, Z.of_nat row * TILESIZE)
    else player_args lv.
Proof.
  unfold visit. cbv zeta.
  destruct (Ascii.eqb tile "1"), (Ascii.eqb tile "P"), (Ascii.eqb tile "E"),
    (Ascii.eqb tile "W"); reflexivity.
Qed.

Lemma scan_row_walls row tiles : forall col lv w,
  In w (wall_positions (scan_row row col tiles lv))
  <-> In w (wall_positions lv)
      \/ exists c, tiles !! c = Some "1"%char
           /\ w = (Z.of_nat (col + c) * TILESIZE, Z.of_nat row * TILESIZE).
Proof.
  induction tiles as [|tile rest IH]; intros col lv w; cbn [scan_row].
  - split; [by left|]. intros [H|(c & H & _)]; done.
  - rewrite IH, visit_walls. split.
    + intros [H|(c & Hc & ->)].
      * destruct (Ascii.eqb_spec tile "1"%char) as [->|_]; [|by left].
        apply in_app_or in H. destruct H as [H|[<-|[]]]; [by left|].
        right. exists 0%nat. by rewrite Nat.add_0_r.
      * right. exists (S c). split; [done|].
        by replace (col + S c)%nat with (S col + c)%nat by lia.
    + intros [H|(c & Hc & ->)].
      * left. destruct (Ascii.eqb tile "1"); [apply in_or_app|]; auto.
      * destruct c as [|c].
        -- cbn in Hc. assert (tile = "1"%char) as -> by congruence.
           left. apply in_or_app. right. left.
           by rewrite Nat.add_0_r.
        -- right. exists c. split; [done|].
           by replace (col + S c)%nat with (S col + c)%nat by lia.
Qed.

Lemma scan_walls data : forall row lv w,
  In w (wall_positions (scan row data lv))
  <-> In w (wall_positions lv)
      \/ exists c r, tile_at data c r = Some "1"%char
           /\ w = (Z.of_nat c * TILESIZE, Z.of_nat (row + r) * TILESIZE).
Proof.
  induction data as [|tiles rest IH]; intros row lv w; cbn [scan].
  - split; [by left|]. intros [H|(c & r & H & _)]; [done|].
    unfold tile_at in H. by rewrite lookup_nil in H.
  - rewrite IH, scan_row_walls. split.
    + intros [[H|(c & Hc & ->)]|(c & r & Hc & ->)].
      * by left.
      * right. exists c, 0%nat. by rewrite Nat.add_0_r.
      * right. exists c, (S r). split; [done|].
        by replace (row + S r)%nat with (S row + r)%nat by lia.
    + intros [H|(c & r & Hc & ->)]; [by left; left|].
      destruct r as [|r].
      * left. right. exists c. by rewrite Nat.add_0_r.
      * right. exists c, r. split; [done|].
        by replace (row + S r)%nat with (S row + r)%nat by lia.
Qed.

(** X17: the walls of the graph are the ['1'] tiles of the map. For a tile
    size other than 0, a tile is among [self.game_graph.walls] exactly
    when it is the column and the row of a ['1'] of the map: the division
    by the tile size undoes the multiplication of the loop. *)
Theorem graph_walls_are_the_wall_tiles data a b :
  TILESIZE <> 0 ->
  In (a, b) (graph_walls (new data))
  <-> exists c r, a = Z.of_nat c /\ b = Z.of_nat r
        /\ tile_at data c r = Some "1"%char.
Proof.
  intros HT. unfold graph_walls, new.
  rewrite <- list_elem_of_In, list_elem_of_fmap. split.
  - intros ([x y] & Hab & Hin). apply list_elem_of_In, scan_walls in Hin.
    destruct Hin as [[]|(c & r & Hc & Hw)]. injection Hw as -> ->.
    cbn [fst snd] in Hab. rewrite !Z.div_mul in Hab by done.
    injection Hab as -> ->. by exists c, r.
  - intros (c & r & -> & -> & Hc).
    exists (Z.of_nat c * TILESIZE, Z.of_nat r * TILESIZE). cbn [fst snd].
    rewrite !Z.div_mul by done. split; [done|].
    apply list_elem_of_In, scan_walls. right. by exists c, r.
Qed.

(** *** The player *)

Lemma scan_row_player row tiles : forall col lv a,
  player_args (scan_row row col tiles lv) = Some a ->
  player_args lv = Some a
  \/ exists c, tiles !! c = Some "P"%char
       /\ a = (Z.of_nat (col + c) * TILESIZE, Z.of_nat row * TILESIZE).
Proof.
  induction tiles as [|tile rest IH]; intros col lv a H; cbn [scan_row] in H.
  - by left.
  - apply IH in H. destruct H as [H|(c & Hc & ->)].
    + rewrite visit_player in H.
      destruct (Ascii.eqb_spec tile "P"%char) as [->|_]; [|by left].
      injection H as <-. right. exists 0%nat. by rewrite Nat.add_0_r.
    + right. exists (S c). split; [done|].
      by replace (col + S c)%nat with (S col + c)%nat by lia.
Qed.

Lemma scan_player data : forall row lv a,
  player_args (scan row data lv) = Some a ->
  player_args lv = Some a
  \/ exists c r, tile_at data c r = Some "P"%char
       /\ a = (Z.of_nat c * TILESIZE, Z.of_nat (row + r) * TILESIZE).
Proof.
  induction data as [|tiles rest IH]; intros row lv a H; cbn [scan] in H.
  - by left.
  - apply IH in H. destruct H as [H|(c & r & Hc & ->)].
    + apply scan_row_player in H. destruct H as [H|(c & Hc & ->)]; [by left|].
      right. exists c, 0%nat. by rewrite Nat.add_0_r.
    + right. exists c, (S r). split; [done|].
      by replace (row + S r)%nat with (S row + r)%nat by lia.
Qed.

Lemma path_tile_div pos :
  0 < TILESIZE -> path_tile pos = (fst pos / TILESIZE, snd pos / TILESIZE).
Proof.
  intros HT. unfold path_tile, Pathfinding.tile_of, vx, vy. cbn [fst snd].
  destruct TILESIZE as [|t|t]; try lia.
  unfold Qdiv, Qinv, Qmult, inject_Z, Qfloor. cbn [Qnum Qden].
  by rewrite !Z.mul_1_r, !Pos.mul_1_l.
Qed.

(** X18: the tile of the player. [Game.new] hands the pixel position of
    the ['P'] tile to [Player], and [Player.__init__] multiplies it by the
    tile size once more; so for a player created at column [c], row [r]
    of the map, the tile in which [find_path] looks for the player before
    it has moved is [(c * TILESIZE, r * TILESIZE)], which is the tile of
    the map only for a tile size of 1 or in the corner [(0, 0)]. *)
Theorem player_tile_is_scaled data args :
  0 < TILESIZE ->
  player_args (new data) = Some args ->
  exists c r, tile_at data c r = Some "P"%char
    /\ args = (Z.of_nat c * TILESIZE, Z.of_nat r * TILESIZE)
    /\ path_tile (player_pos args)
       = (Z.of_nat c * TILESIZE, Z.of_nat r * TILESIZE)
    /\ (path_tile (player_pos args) = (Z.of_nat c, Z.of_nat r)
        <-> TILESIZE = 1 \/ (c = 0%nat /\ r = 0%nat)).
Proof.
  intros HT H. apply scan_player in H. destruct H as [H|(c & r & Hc & ->)];
    [done|].
  exists c, r. split; [done|]. split; [done|].
  assert (E : path_tile
                (player_pos (Z.of_nat c * TILESIZE, Z.of_nat (0 + r) * TILESIZE))
              = (Z.of_nat c * TILESIZE, Z.of_nat r * TILESIZE)).
  { rewrite path_tile_div by done. unfold player_pos. cbn [fst snd].
    by rewrite !Z.div_mul by lia. }
  split; [exact E|]. rewrite E. split.
  - intros [= H1 H2]. destruct (decide (TILESIZE = 1)) as [|Hne]; [by left|].
    right. split; nia.
  - intros [->|[-> ->]]; [by rewrite !Z.mul_1_r|done].
Qed.

End Tiles.

(** *** A map of two lines *)

(** The lines ["1P"] and ["E1"], with tiles of 64 pixels. *)
Definition small_map : list (list ascii) :=
  [["1"; "P"]; ["E"; "1"]]%char.

Lemma graph_walls_witness :
  64 <> 0
  /\ (In (1, 1) (graph_walls 64 (new 64 small_map))
      <-> exists c r, 1 = Z.of_nat c /\ 1 = Z.of_nat r
            /\ tile_at small_map c r = Some "1"%char).
Proof.
  assert (H : 64 <> 0) by discriminate.
  split; [exact H|].
  exact (graph_walls_are_the_wall_tiles 64 small_map 1 1 H).
Defined.

Lemma player_tile_witness :
  0 < 64
  /\ player_args (new 64 small_map) = Some (64, 0)
  /\ exists c r, tile_at small_map c r = Some "P"%char
      /\ (64, 0) = (Z.of_nat c * 64, Z.of_nat r * 64)
      /\ path_tile 64 (player_pos 64 (64, 0)) = (Z.of_nat c * 64, Z.of_nat r * 64)
      /\ (path_tile 64 (player_pos 64 (64, 0)) = (Z.of_nat c, Z.of_nat r)
          <-> 64 = 1 \/ (c = 0%nat /\ r = 0%nat)).
Proof.
  assert (H1 : 0 < 64) by reflexivity.
  assert (H2 : player_args (new 64 small_map) = Some (64, 0)) by reflexivity.
  split; [exact H1|]. split; [exact H2|].
  exact (player_tile_is_scaled 64 small_map (64, 0) H1 H2).
Defined.

(** The player of [small_map] stands in column 1 of the map, and
    [find_path] looks for it in column 64. *)
Example player_of_small_map :
  path_tile 64 (player_pos 64 (64, 0)) = (64, 0)
  /\ graph_walls 64 (new 64 small_map) = [(0, 0); (1, 1)].
Proof. split; reflexivity. Qed.

End Level.

(* ===================================================================== *)
(** ** The head-up display: the bars and the clip                         *)
(* ===================================================================== *)

Module Hud.

Import Floats.
Unset Implicit Arguments.

(** The colours of the outlines of [draw_current_clip]. *)
Inductive Colour := GOLD | LIGHTGREY.

Section Bars.

(** [PLAYER_HEALTH], [PLAYER_STAMINA] and [BAR_LENGTH] of [settings.py]. *)
Variable PLAYER_HEALTH : Z.
Variable PLAYER_STAMINA : Q.
Variable BAR_LENGTH : Z.

(** [Game.draw_player_health]: the width of the filled rectangle, for the
    whole-number share that [draw_player_stats] hands over. *)
Definition draw_player_health (pct : Z) : Z :=
  let pct := if (pct <? 0)%Z then 0%Z else pct in
  (pct * BAR_LENGTH)%Z.

(** [Game.draw_player_stamina]: the width of the filled rectangle. *)
Definition draw_player_stamina (pct : Q) : Q :=
  let pct := if Qltb pct 0 then 0 else pct in
  pct * inject_Z BAR_LENGTH.

(** [Game.draw_player_stats]: the widths of the two filled rectangles,
    [self.player.health // PLAYER_HEALTH] for the health and
    [self.player.stamina / PLAYER_STAMINA] for the stamina. (With one of
    the two constants at 0 the division raises; the properties below are
    for constants above 0.) *)
Definition draw_player_stats (health : Z) (stamina : Q) : Z * Q :=
  (draw_player_health (health / PLAYER_HEALTH)%Z,
   draw_player_stamina (stamina / PLAYER_STAMINA)).

(** X19: the health bar is all or nothing. The share of the health is
    taken with the whole-number division, so for every health from 0 up to
    but not including [PLAYER_HEALTH] the filled part of the health bar
    has width 0; at [PLAYER_HEALTH] it has the full width. The stamina bar
    grows with the stamina and stays within the bar for a stamina between
    0 and [PLAYER_STAMINA]. *)
Theorem bars_of_the_player health stamina :
  (0 < PLAYER_HEALTH)%Z -> (0 <= BAR_LENGTH)%Z -> 0 < PLAYER_STAMINA ->
  ((0 <= health < PLAYER_HEALTH)%Z ->
     fst (draw_player_stats health stamina) = 0%Z)
  /\ (fst (draw_player_stats PLAYER_HEALTH stamina) = BAR_LENGTH)
  /\ (0 <= fst (draw_player_stats health stamina))%Z
  /\ (0 <= stamina -> stamina <= PLAYER_STAMINA ->
      0 <= snd (draw_player_stats health stamina)
      /\ snd (draw_player_stats health stamina) <= inject_Z BAR_LENGTH).
Proof.
  intros Hh Hb Hs. unfold draw_player_stats, draw_player_health,
    draw_player_stamina. cbn [fst snd].
  split; [|split; [|split]].
  - intros Hr. rewrite Z.div_small by lia. done.
  - rewrite Z.div_same by lia. cbn. lia.
  - destruct (Z.ltb_spec (health / PLAYER_HEALTH) 0); nia.
  - intros H0 H1.
    assert (Hb' : 0 <= inject_Z BAR_LENGTH).
    { unfold Qle, inject_Z; cbn. lia. }
    assert (Hp : 0 <= stamina / PLAYER_STAMINA).
    { apply Qle_shift_div_l; [done|]. lra. }
    assert (Hq : stamina / PLAYER_STAMINA <= 1).
    { apply Qle_shift_div_r; [done|]. lra. }
    destruct (Qltb (stamina / PLAYER_STAMINA) 0) eqn:E.
    + apply Qltb_lt in E. lra.
    + split; [by apply Qmult_le_0_compat|].
      apply Qle_trans with (1 * inject_Z BAR_LENGTH).
      * by apply Qmult_le_compat_r.
      * rewrite Qmult_1_l. apply Qle_refl.
Qed.

End Bars.

(** [Game.draw_current_clip] for a weapon other than the knife: the
    outlines that the loop draws, each with its colour and its [x], and
    the [x] at which the magazine is drawn after them. *)
Fixpoint outlines (n : nat) (j temp bullets bullet_length : Z)
  : list (Colour * Z) * Z :=
  match n with
  | O => ([], temp)
  | S n' =>
      let colour := if (j <? bullets)%Z then GOLD else LIGHTGREY in
      let (rest, mag) :=
        outlines n' (j + 1)%Z (temp + 2 * bullet_length)%Z bullets bullet_length in
      ((colour, temp) :: rest, mag)
  end.

(** [Game.draw_current_clip]: nothing for the knife; [clip_size] is
    [WEAPONS[weapon]['clip size']]. *)
Definition draw_current_clip (weapon : string) (clip_size : Z)
  (x bullets bullet_length : Z) : option (list (Colour * Z) * Z) :=
  if negb (String.eqb weapon "knife") then
    Some (outlines (Z.to_nat clip_size) 0 x bullets bullet_length)
  else None.

Lemma outlines_spec n : forall j temp bullets len,
  length (fst (outlines n j temp bullets len)) = n
  /\ snd (outlines n j temp bullets len) = (temp + 2 * len * Z.of_nat n)%Z
  /\ forall i : nat, (i < n)%nat ->
       fst (outlines n j temp bullets len) !! i
       = Some (if (j + Z.of_nat i <? bullets)%Z then GOLD else LIGHTGREY,
               (temp + 2 * len * Z.of_nat i)%Z).
Proof.
  induction n as [|n IH]; intros j temp bullets len.
  - cbn. repeat split; [lia|]. intros i Hi. lia.
  - cbn [outlines].
    destruct (outlines n (j + 1) (temp + 2 * len) bullets len) as [rest mag] eqn:E.
    destruct (IH (j + 1)%Z (temp + 2 * len)%Z bullets len) as (H1 & H2 & H3).
    rewrite E in H1, H2, H3. cbn [fst snd] in *.
    split; [cbn; by rewrite H1|]. split; [lia|].
    intros [|i] Hi.
    + cbn. by rewrite Z.add_0_r, Z.mul_0_r, Z.add_0_r.
    + cbn [lookup list_lookup]. rewrite H3 by lia.
      replace (j + 1 + Z.of_nat i)%Z with (j + Z.of_nat (S i))%Z by lia.
      replace (temp + 2 * len + 2 * len * Z.of_nat i)%Z
        with (temp + 2 * len * Z.of_nat (S i))%Z by lia.
      done.
Qed.

(** X20: the clip on the display. For a firearm with a clip of [size]
    bullets, [draw_current_clip] draws exactly [size] outlines, the one at
    place [i] at [x + 2 * bullet_length * i], gold if [i] is below the
    number of bullets in the clip and grey otherwise, and the magazine
    right after the last outline; for the knife it draws nothing. *)
Theorem clip_on_the_display weapon size x bullets len :
  (0 <= size)%Z ->
  (weapon = "knife"%string ->
     draw_current_clip weapon size x bullets len = None)
  /\ (weapon <> "knife"%string ->
      exists drawn mag,
        draw_current_clip weapon size x bullets len = Some (drawn, mag)
        /\ Z.of_nat (length drawn) = size
        /\ mag = (x + 2 * len * size)%Z
        /\ forall i : nat, (Z.of_nat i < size)%Z ->
             drawn !! i
             = Some (if (Z.of_nat i <? bullets)%Z then GOLD else LIGHTGREY,
                     (x + 2 * len * Z.of_nat i)%Z)).
Proof.
  intros Hs. unfold draw_current_clip. split.
  - intros ->. reflexivity.
  - intros Hne. apply String.eqb_neq in Hne. rewrite Hne. cbn [negb].
    destruct (outlines_spec (Z.to_nat size) 0 x bullets len) as (H1 & H2 & H3).
    destruct (outlines (Z.to_nat size) 0 x bullets len) as [drawn mag].
    cbn [fst snd] in *. rewrite Z2Nat.id in H2 by lia.
    exists drawn, mag. split; [done|].
    split; [lia|]. split; [done|]. intros i Hi.
    rewrite H3 by lia. by rewrite Z.add_0_l.
Qed.

Lemma bars_witness :
  (0 < 100)%Z /\ (0 <= 200)%Z /\ 0 < 100
  /\ ((0 <= 50 < 100)%Z -> fst (draw_player_stats 100 100 200 50 60) = 0%Z)
  /\ (fst (draw_player_stats 100 100 200 100 60) = 200%Z)
  /\ (0 <= fst (draw_player_stats 100 100 200 50 60))%Z
  /\ (0 <= 60 -> 60 <= 100 ->
      0 <= snd (draw_player_stats 100 100 200 50 60)
      /\ snd (draw_player_stats 100 100 200 50 60) <= inject_Z 200).
Proof.
  assert (H1 : (0 < 100)%Z) by reflexivity.
  assert (H2 : (0 <= 200)%Z) by discriminate.
  assert (H3 : 0 < 100) by reflexivity.
  split; [exact H1|]. split; [exact H2|]. split; [exact H3|].
  exact (bars_of_the_player 100 100 200 50 60 H1 H2 H3).
Defined.

Lemma clip_witness :
  (0 <= 6)%Z
  /\ ("rifle"%string <> "knife"%string ->
      exists drawn mag,
        draw_current_clip "rifle" 6 10 4 3 = Some (drawn, mag)
        /\ Z.of_nat (length drawn) = 6%Z
        /\ mag = (10 + 2 * 3 * 6)%Z
        /\ forall i : nat, (Z.of_nat i < 6)%Z ->
             drawn !! i
             = Some (if (Z.of_nat i <? 4)%Z then GOLD else LIGHTGREY,
                     (10 + 2 * 3 * Z.of_nat i)%Z)).
Proof.
  assert (H : (0 <= 6)%Z) by discriminate.
  split; [exact H|].
  exact (proj2 (clip_on_the_display "rifle" 6 10 4 3 H)).
Defined.

End Hud.

(* ===================================================================== *)
(** ** The swing of the weapon: [Player.swing_weapon]                     *)
(* ===================================================================== *)

Module Melee.

Import Floats Motion.
Open Scope Q_scope.
Unset Implicit Arguments.

(** [rect.right = v] and [rect.bottom = v]: the far edge goes to [v]. *)
Definition set_hi (ax : Axis) (v : Q) (r : Rect) : Rect :=
  set_lo ax (v - len ax r) r.

(** The melee box of the player and the time at which it was made. *)
Record Swing := mkSwing {
  melee_box : option Rect;
  melee_box_spawn_time : Z
}.

Section Box.

(** [PLAYER_MELEE_RECT] of [settings.py]. *)
Variable PLAYER_MELEE_RECT : Rect.

(** [Player.swing_weapon], given the direction and the hit rectangle of
    the player and the clock; each branch names two points of the two
    rectangles that are made to coincide. *)
Definition swing_weapon (direction : string) (hit_rect : Rect) (now : Z)
  (s : Swing) : Swing :=
  let box := PLAYER_MELEE_RECT in
  if String.eqb direction "E" then
    (* midleft = midright *)
    mkSwing (Some (set_center Y (center Y hit_rect)
                     (set_lo X (hi X hit_rect) box))) now
  else if String.eqb direction "NE" then
    (* bottomleft = topright *)
    mkSwing (Some (set_hi Y (lo Y hit_rect)
                     (set_lo X (hi X hit_rect) box))) now
  else if String.eqb direction "N" then
    (* midbottom = midtop *)
    mkSwing (Some (set_hi Y (lo Y hit_rect)
                     (set_center X (center X hit_rect) box))) now
  else if String.eqb direction "NW" then
    (* bottomright = topleft *)
    mkSwing (Some (set_hi Y (lo Y hit_rect)
                     (set_hi X (lo X hit_rect) box))) now
  else if String.eqb direction "W" then
    (* midright = midleft *)
    mkSwing (Some (set_center Y (center Y hit_rect)
                     (set_hi X (lo X hit_rect) box))) now
  else if String.eqb direction "SW" then
    (* topright = bottomleft *)
    mkSwing (Some (set_lo Y (hi Y hit_rect)
                     (set_hi X (lo X hit_rect) box))) now
  else if String.eqb direction "S" then
    (* midtop = midbottom *)
    mkSwing (Some (set_lo Y (hi Y hit_rect)
                     (set_center X (center X hit_rect) box))) now
  else if String.eqb direction "SE" then
    (* topleft = bottomright *)
    mkSwing (Some (set_lo Y (hi Y hit_rect)
                     (set_lo X (hi X hit_rect) box))) now
  else mkSwing (Some box) (melee_box_spawn_time s).

(** [Player.update_melee_box]. *)
Definition update_melee_box (now : Z) (s : Swing) : Swing :=
  if (now - melee_box_spawn_time s >? 100)%Z
  then mkSwing None (melee_box_spawn_time s) else s.

(** The eight directions that [update_direction] assigns. *)
Definition compass : list string :=
  ["E"; "NE"; "N"; "NW"; "W"; "SW"; "S"; "SE"]%string.

(** The two rectangles share no area. *)
Definition apart (a b : Rect) : Prop :=
  hi X a <= lo X b \/ hi X b <= lo X a \/ hi Y a <= lo Y b \/ hi Y b <= lo Y a.

(** X21: the melee box lies beside the player. For each of the eight
    compass directions the box that [swing_weapon] makes has the size of
    [PLAYER_MELEE_RECT], is made at the clock of the call, and shares no
    area with the hit rectangle of the player: it begins where the hit
    rectangle ends, on the side that the direction names (east is to the
    right, north is up the screen). *)
Theorem melee_box_is_beside_the_player direction hit_rect now s :
  In direction compass ->
  exists box,
    swing_weapon direction hit_rect now s = mkSwing (Some box) now
    /\ rw box = rw PLAYER_MELEE_RECT /\ rh box = rh PLAYER_MELEE_RECT
    /\ apart box hit_rect
    /\ (In direction ["E"; "NE"; "SE"]%string -> lo X box == hi X hit_rect)
    /\ (In direction ["W"; "NW"; "SW"]%string -> hi X box == lo X hit_rect)
    /\ (In direction ["N"; "NE"; "NW"]%string -> hi Y box == lo Y hit_rect)
    /\ (In direction ["S"; "SE"; "SW"]%string -> lo Y box == hi Y hit_rect).
Proof.
  intros Hd. unfold compass in Hd. cbn [In] in Hd.
  assert (Hno : forall a b : string, a <> b -> forall l, (a = b \/ l) -> l)
    by (intros a b Hab l [?|?]; [done|done]).
  repeat destruct Hd as [<-|Hd]; try done;
    (eexists; split; [reflexivity|]);
    (split; [reflexivity|]); (split; [reflexivity|]);
    unfold apart, hi, set_hi, set_center, center; cbn;
    (split; [first [left; lra|right; left; lra|right; right; left; lra
                   |right; right; right; lra]|]);
    repeat split; cbn [In]; intros Hin;
    repeat (destruct Hin as [Hin|Hin]; try discriminate Hin);
    try contradiction; ring.
Qed.

End Box.

Lemma melee_box_witness :
  In "NE"%string compass
  /\ exists box,
      swing_weapon (mkRect 0 0 30 30) "NE" (mkRect 100 100 20 20) 500
        (mkSwing None 0) = mkSwing (Some box) 500
      /\ rw box = rw (mkRect 0 0 30 30) /\ rh box = rh (mkRect 0 0 30 30)
      /\ apart box (mkRect 100 100 20 20)
      /\ (In "NE"%string ["E"; "NE"; "SE"]%string
          -> lo X box == hi X (mkRect 100 100 20 20))
      /\ (In "NE"%string ["W"; "NW"; "SW"]%string
          -> hi X box == lo X (mkRect 100 100 20 20))
      /\ (In "NE"%string ["N"; "NE"; "NW"]%string
          -> hi Y box == lo Y (mkRect 100 100 20 20))
      /\ (In "NE"%string ["S"; "SE"; "SW"]%string
          -> lo Y box == hi Y (mkRect 100 100 20 20)).
Proof.
  assert (H : In "NE"%string compass) by (right; left; reflexivity).
  split; [exact H|].
  exact (melee_box_is_beside_the_player (mkRect 0 0 30 30) "NE"
           (mkRect 100 100 20 20) 500 (mkSwing None 0) H).
Defined.

End Melee.

(* ===================================================================== *)
(** ** The event loop: [Game.events]                                      *)
(* ===================================================================== *)

Module Events.

Unset Implicit Arguments.

(** The keys that [events] looks at, and any other. *)
Inductive Key := K_b | K_p | K_h | K_other.

(** An event of the queue: the window is closed, a key goes down, or
    anything else. *)
Inductive Event := QUIT | KEYDOWN (key : Key) | OtherEvent.

(** The flags of [Game] that [events] writes. *)
Record Flags := mkFlags {
  playing : bool;
  running : bool;
  debug : bool;
  paused : bool;
  hardcore_mode : bool
}.

(** The body of [for event in pg.event.get()]. *)
Definition handle (f : Flags) (e : Event) : Flags :=
  match e with
  | QUIT =>
      let f := if playing f
               then mkFlags false (running f) (debug f) (paused f) (hardcore_mode f)
               else f in
      mkFlags (playing f) false (debug f) (paused f) (hardcore_mode f)
  | KEYDOWN key =>
      let f := match key with
               | K_b => mkFlags (playing f) (running f) (negb (debug f))
                          (paused f) (hardcore_mode f)
               | _ => f
               end in
      let f := match key with
               | K_p => mkFlags (playing f) (running f) (debug f)
                          (negb (paused f)) (hardcore_mode f)
               | _ => f
               end in
      match key with
      | K_h => mkFlags (playing f) (running f) (debug f) (paused f)
                 (negb (hardcore_mode f))
      | _ => f
      end
  | OtherEvent => f
  end.

(** [Game.events], given the events of the queue. *)
Definition events (queue : list Event) (f : Flags) : Flags :=
  fold_left handle queue f.

Global Instance Key_eq_dec : EqDecision Key.
Proof. solve_decision. Defined.

Global Instance Event_eq_dec : EqDecision Event.
Proof. solve_decision. Defined.

(** How often a key goes down in a queue. *)
Definition presses (k : Key) (queue : list Event) : nat :=
  length (filter (fun e => e = KEYDOWN k) queue).

Lemma quit_cons e queue :
  bool_decide (QUIT ∈ e :: queue)
  = bool_decide (e = QUIT) || bool_decide (QUIT ∈ queue).
Proof.
  rewrite <- bool_decide_or. apply bool_decide_ext.
  rewrite elem_of_cons. split; intros [?|?]; auto.
Qed.

(** X22: what a queue of events does to the flags. The game keeps running
    and playing exactly if it did before and the queue holds no [QUIT];
    each of the three switches (debug with [b], pause with [p], hardcore
    with [h]) ends up flipped exactly if its key went down an odd number
    of times, whatever else is in the queue and in whatever order. *)
Theorem events_flip_by_parity queue : forall f,
  running (events queue f) = running f && negb (bool_decide (QUIT ∈ queue))
  /\ playing (events queue f) = playing f && negb (bool_decide (QUIT ∈ queue))
  /\ debug (events queue f) = xorb (debug f) (Nat.odd (presses K_b queue))
  /\ paused (events queue f) = xorb (paused f) (Nat.odd (presses K_p queue))
  /\ hardcore_mode (events queue f)
     = xorb (hardcore_mode f) (Nat.odd (presses K_h queue)).
Proof.
  induction queue as [|e queue IH]; intros f.
  - cbn. rewrite bool_decide_false by apply not_elem_of_nil.
    by rewrite !andb_true_r, !xorb_false_r.
  - unfold events in *. cbn [fold_left].
    destruct (IH (handle f e)) as (H1 & H2 & H3 & H4 & H5).
    rewrite H1, H2, H3, H4, H5. clear IH H1 H2 H3 H4 H5.
    rewrite (quit_cons e queue). unfold presses. rewrite !filter_cons.
    destruct f as [pl ru de pa ha].
    destruct e as [|[| | |]|]; cbn [handle];
      repeat match goal with
      | |- context [decide (?a = ?b)] =>
          destruct (decide (a = b)); try discriminate; try congruence
      end;
      repeat case_bool_decide; try discriminate; try congruence;
      cbn [playing running debug paused hardcore_mode length orb negb];
      rewrite ?Nat.odd_succ, <- ?Nat.negb_odd;
      destruct pl, ru, de, pa, ha;
      repeat match goal with
      | |- context [Nat.odd ?n] => destruct (Nat.odd n)
      end; done.
Qed.

End Events.
